(** * Capturinha: the WASAPI audio capture ring buffer

    A shallow embedding of [AudioCapture_WASAPI] (audiocapture_wasapi.cpp):
    the ring of captured bytes with its read and write cursors, the time
    anchor, the per-packet body of [CaptureThreadFunc] and the consumer
    entry points [Read], [JumpToTime] and [Flush].

    Conventions.
    - [uint] values are integers in [0, 2^32); every unsigned operation of
      the source is written with its wrap-around ([uadd], [usub], [umul]).
    - [double] values are modelled by exact rationals ([Q]): sums, products
      and quotients are the mathematical ones, the rounding of IEEE
      arithmetic is not represented.  [packet_time], [read_time] and
      [delta_samples] are therefore the exact values of their expressions;
      module [Binary64] evaluates the time stamps as binary64 rounds them.
    - Each operation is taken as one atomic step: the section guarded by
      [RingLock] together with the copy that follows it.  The source
      leaves the lock before it copies; [CapturePacket_locked] is the
      object in between. *)

From Stdlib Require Import ZArith QArith Qround Lia Lqa Init.Byte.
From Stdlib Require PrimFloat Uint63.
From stdpp Require Import base list strings.

Local Open Scope Z_scope.

(** ** Machine integers *)

Module Machine.

Definition wrap32 (z : Z) : Z := z mod 2 ^ 32.

Definition uadd (a b : Z) : Z := wrap32 (a + b).
Definition usub (a b : Z) : Z := wrap32 (a - b).
Definition umul (a b : Z) : Z := wrap32 (a * b).

(** Conversion of a 32-bit pattern to [int] (two's complement). *)
Definition to_int (z : Z) : Z :=
  let u := wrap32 z in if u <? 2 ^ 31 then u else u - 2 ^ 32.

Definition is_uint (z : Z) : Prop := 0 <= z < 2 ^ 32.
Definition is_int (z : Z) : Prop := - 2 ^ 31 <= z < 2 ^ 31.

(** [round] of <math.h>: nearest integer, halves away from zero. *)
Definition round (q : Q) : Z :=
  if Qle_bool 0 q then Qfloor (q + (1 # 2)) else Qceiling (q - (1 # 2)).

(** [(int)] applied to an integral double.  Outside the range of [int] the
    conversion is not defined by the language; the x64 instruction used for
    it yields the pattern 0x80000000. *)
Definition double_to_int (z : Z) : Z :=
  if (- 2 ^ 31 <=? z) && (z <? 2 ^ 31) then z else - 2 ^ 31.

End Machine.
Export Machine.

(** ** Helpers of system.h *)

(** Modelled from the spec: [Min] of system.h is not part of the sources at
    hand; it is the smaller of its two arguments. *)
Definition Min (a b : Z) : Z := if a <? b then a else b.

(** Modelled from the spec: [Clamp] of system.h is not part of the sources
    at hand; the value is pinned to the nearest bound of [lo, hi]. *)
Definition Clamp (v lo hi : Z) : Z :=
  if v <? lo then lo else if hi <? v then hi else v.

(** ** Byte buffers *)

Abbreviation uint8 := Byte.byte.

(** [memcpy (dst + off, src, n)] and [memset (dst + off, v, n)] on a buffer
    held as a list.  A store past the end of the list is dropped here; the
    addresses a call touches are given by [touched], so that staying inside
    the buffer is a statement of its own. *)
Definition memcpy (dst : list uint8) (off : Z) (src : list uint8) (n : Z) : list uint8 :=
  list_inserts (Z.to_nat off) (take (Z.to_nat n) src) dst.

Definition memset (dst : list uint8) (off : Z) (v : uint8) (n : Z) : list uint8 :=
  list_inserts (Z.to_nat off) (replicate (Z.to_nat n) v) dst.

(** The [n] bytes found at [src + off], as [memcpy] into a destination
    delivers them. *)
Definition fetch (src : list uint8) (off n : Z) : list uint8 :=
  take (Z.to_nat n) (drop (Z.to_nat off) src).

(** Byte indices addressed by an access of [n] bytes at offset [off]. *)
Definition touched (off n : Z) : list Z :=
  (fun i : nat => off + Z.of_nat i) <$> seq 0 (Z.to_nat n).

(** ** Stream format *)

Record WAVEFORMATEXTENSIBLE := {
  wFormatTag : Z;
  nChannels : Z;
  nSamplesPerSec : Z;
  wBitsPerSample : Z;
  SubFormat : Z
}.

Definition WAVE_FORMAT_PCM : Z := 1.
Definition WAVE_FORMAT_IEEE_FLOAT : Z := 3.
Definition WAVE_FORMAT_EXTENSIBLE : Z := 0xFFFE.
(** {00000003-0000-0010-8000-00aa00389b71} *)
Definition KSDATAFORMAT_SUBTYPE_IEEE_FLOAT : Z := 0x0000000300000010800000aa00389b71.
(** {00000001-0000-0010-8000-00aa00389b71} *)
Definition KSDATAFORMAT_SUBTYPE_PCM : Z := 0x0000000100000010800000aa00389b71.

Definition AUDCLNT_BUFFERFLAGS_SILENT : Z := 0x2.
Definition REFPERSEC : Z := 10000000.

(** ** The capture object *)

Record AudioCapture := {
  Format : WAVEFORMATEXTENSIBLE;
  Ring : list uint8;
  RingSize : Z;
  RingRead : Z;
  RingWrite : Z;
  RingTimePos : Z;
  RingTimeValue : Q;
  BytesPerSample : Z
}.

(** What [GetBuffer] hands to the capture thread for one packet. *)
Record packet := {
  data : list uint8;
  samples : Z;
  flags : Z;
  qpctime : Z
}.

Definition is_silent (p : packet) : bool :=
  negb (Z.land (flags p) AUDCLNT_BUFFERFLAGS_SILENT =? 0).

(** *** Construction *)

Inductive outcome (A : Type) : Type :=
  | Fatal : outcome A
  | Started : A -> outcome A.
Arguments Fatal {A}.
Arguments Started {A} _.

Definition FAILED (hr : Z) : bool := hr <? 0.

(** [CHECK (x)]: a failed platform call ends the process through [Fatal]. *)
Definition CHECK {A} (hr : Z) (k : outcome A) : outcome A :=
  if FAILED hr then Fatal else k.

(** Modelled from the spec: [ASSERT] of system.h is not part of the sources
    at hand; a violated assertion is fatal, there is no way to recover. *)
Definition ASSERT {A} (c : bool) (k : outcome A) : outcome A :=
  if c then k else Fatal.

(** The format test of the constructor. *)
Definition float_encoded (fmt : WAVEFORMATEXTENSIBLE) : bool :=
  (wFormatTag fmt =? WAVE_FORMAT_EXTENSIBLE)
  && (SubFormat fmt =? KSDATAFORMAT_SUBTYPE_IEEE_FLOAT).

(** The middle part of the constructor: activation of the capture client,
    its mix format, the format test and the sizing of the ring.  [fresh]
    is the content of the newly allocated array, which [new] leaves
    unspecified.  The product of the two [WORD] fields is taken in [int];
    beyond the range of [int] the language does not define it, the x64
    multiply wraps, and so does [to_int].  The calls before and after this
    part are in [construct] below. *)
Definition AudioCapture_WASAPI (hrActivate hrGetMixFormat : Z)
    (fmt : WAVEFORMATEXTENSIBLE) (fresh : nat -> uint8) : outcome AudioCapture :=
  CHECK hrActivate (
  CHECK hrGetMixFormat (
  ASSERT (float_encoded fmt) (
    let bytesPerSample :=
      wrap32 (Z.quot (to_int (nChannels fmt * wBitsPerSample fmt)) 8) in
    let ringSize := umul (nSamplesPerSec fmt) bytesPerSample in
    Started {|
      Format := fmt;
      Ring := fresh <$> seq 0 (Z.to_nat ringSize);
      RingSize := ringSize;
      RingRead := 0;
      RingWrite := 0;
      RingTimePos := 0;
      RingTimeValue := 0%Q;
      BytesPerSample := bytesPerSample
    |}))).

(** *** The capture thread: one packet *)

Record cursors := {
  c_read : Z;
  c_write : Z;
  c_timepos : Z;
  c_pos : Z
}.

(** The section of [CaptureThreadFunc] held under [RingLock]. *)
Definition locked_update (s : AudioCapture) (bytes : Z) : cursors :=
  let avail := usub (RingSize s) (usub (RingWrite s) (RingRead s)) in
  let rd := if avail <? bytes then uadd (RingRead s) (usub bytes avail)
            else RingRead s in
  let tp := RingWrite s in
  let pos := RingWrite s mod RingSize s in
  let wr := uadd (RingWrite s) bytes in
  if RingSize s <? rd
  then {| c_read := usub rd (RingSize s);
          c_write := usub wr (RingSize s);
          c_timepos := usub tp (RingSize s);
          c_pos := pos |}
  else {| c_read := rd; c_write := wr; c_timepos := tp; c_pos := pos |}.

(** The copy into the ring, in two pieces around the end of the storage. *)
Definition store_packet (ring : list uint8) (size pos bytes : Z)
    (silent : bool) (src : list uint8) : list uint8 :=
  let chunk1 := Min bytes (usub size pos) in
  if silent
  then memset (memset ring pos x00 chunk1) 0 x00 (usub bytes chunk1)
  else memcpy (memcpy ring pos src chunk1) 0
              (drop (Z.to_nat chunk1) src) (usub bytes chunk1).

Definition packet_bytes (s : AudioCapture) (p : packet) : Z :=
  umul (samples p) (BytesPerSample s).

(** [(double) qpctime / REFPERSEC], as an exact quotient. *)
Definition packet_time (p : packet) : Q :=
  inject_Z (qpctime p) / inject_Z REFPERSEC.

(** The body of the inner loop of [CaptureThreadFunc] for one packet. *)
Definition CapturePacket (p : packet) (s : AudioCapture) : AudioCapture :=
  let bytes := packet_bytes s p in
  let c := locked_update s bytes in
  {| Format := Format s;
     Ring := store_packet (Ring s) (RingSize s) (c_pos c) bytes (is_silent p) (data p);
     RingSize := RingSize s;
     RingRead := c_read c;
     RingWrite := c_write c;
     RingTimePos := c_timepos c;
     RingTimeValue := packet_time p;
     BytesPerSample := BytesPerSample s |}.

(** One wake-up of the capture thread drains the packets that are pending. *)
Definition CaptureThreadFunc (pending : list packet) (s : AudioCapture) : AudioCapture :=
  foldl (fun acc p => CapturePacket p acc) s pending.

(** Ring indices written for a packet of [bytes] bytes. *)
Definition store_touched (size pos bytes : Z) : list Z :=
  let chunk1 := Min bytes (usub size pos) in
  touched pos chunk1 ++ touched 0 (usub bytes chunk1).

(** *** The consumer side *)

Definition set_RingRead (s : AudioCapture) (r : Z) : AudioCapture :=
  {| Format := Format s;
     Ring := Ring s;
     RingSize := RingSize s;
     RingRead := r;
     RingWrite := RingWrite s;
     RingTimePos := RingTimePos s;
     RingTimeValue := RingTimeValue s;
     BytesPerSample := BytesPerSample s |}.

Definition bytes_per_second (s : AudioCapture) : Z :=
  umul (BytesPerSample s) (nSamplesPerSec (Format s)).

(** The time that belongs to the read cursor, by the anchor: the
    expression of [Read], in exact arithmetic. *)
Definition read_time (s : AudioCapture) : Q :=
  RingTimeValue s
  + (inject_Z (RingRead s) - inject_Z (RingTimePos s))
    / inject_Z (bytes_per_second s).

Record read_result := {
  r_size : Z;
  r_dest : list uint8;
  r_time : Q
}.

Definition Read (size : Z) (s : AudioCapture) : read_result * AudioCapture :=
  let time := read_time s in
  let size := Min size (usub (RingWrite s) (RingRead s)) in
  let pos := RingRead s mod RingSize s in
  let chunk1 := Min size (usub (RingSize s) pos) in
  let dest := fetch (Ring s) pos chunk1 ++ fetch (Ring s) 0 (usub size chunk1) in
  ({| r_size := size; r_dest := dest; r_time := time |},
   set_RingRead s (uadd (RingRead s) size)).

(** Ring indices read by [Read]. *)
Definition Read_touched (size : Z) (s : AudioCapture) : list Z :=
  let size := Min size (usub (RingWrite s) (RingRead s)) in
  let pos := RingRead s mod RingSize s in
  let chunk1 := Min size (usub (RingSize s) pos) in
  touched pos chunk1 ++ touched 0 (usub size chunk1).

(** [JumpToTime] once [deltasamples] is known. *)
Definition jump_by (deltasamples : Z) (s : AudioCapture) : AudioCapture :=
  let destpos := to_int (uadd (RingTimePos s) (umul deltasamples (BytesPerSample s))) in
  set_RingRead s
    (wrap32 (Clamp destpos (to_int (RingRead s)) (to_int (RingWrite s)))).

(** [deltasamples] of [JumpToTime].  The product is exact here; the source
    rounds it to binary64 before [round], so that close to a half-way
    point the two counts can differ by one.  What holds for every count is
    stated on [jump_by]. *)
Definition delta_samples (time : Q) (s : AudioCapture) : Z :=
  double_to_int
    (round ((time - RingTimeValue s) * inject_Z (nSamplesPerSec (Format s)))).

Definition JumpToTime (time : Q) (s : AudioCapture) : AudioCapture :=
  jump_by (delta_samples time s) s.

Definition Flush (s : AudioCapture) : AudioCapture :=
  set_RingRead s (RingWrite s).

(** ** Traces of calls *)

Inductive call :=
  | CAppend (p : packet)
  | CRead (size : Z)
  | CJumpToTime (time : Q)
  | CFlush.

Definition step (s : AudioCapture) (c : call) : AudioCapture :=
  match c with
  | CAppend p => CapturePacket p s
  | CRead size => snd (Read size s)
  | CJumpToTime t => JumpToTime t s
  | CFlush => Flush s
  end.

Definition run (cs : list call) (s : AudioCapture) : AudioCapture :=
  foldl step s cs.

(** ** Well-formed objects and calls *)

(** What the constructor establishes and every call keeps. *)
Record ring_ok (s : AudioCapture) : Prop := {
  ok_size : 0 < RingSize s < 2 ^ 31;
  ok_rate : bytes_per_second s = RingSize s;
  ok_store : length (Ring s) = Z.to_nat (RingSize s);
  ok_read : 0 <= RingRead s;
  ok_order : RingRead s <= RingWrite s;
  ok_write : RingWrite s < 2 ^ 32;
  ok_fill : RingWrite s <= RingRead s + RingSize s
}.

(** Arguments of type [uint] are in range. *)
Definition call_ok (c : call) : Prop :=
  match c with
  | CRead size => is_uint size
  | _ => True
  end.

(** ** Notions used in the statements *)

(** The number of buffered bytes that an append of [bytes] bytes pushes
    out: the excess of the packet over the free room. *)
Definition dropped (s : AudioCapture) (bytes : Z) : Z :=
  Z.max 0 (bytes - (RingSize s - (RingWrite s - RingRead s))).

(** The amount by which the locked section then moves the offsets down. *)
Definition rebase (s : AudioCapture) (bytes : Z) : Z :=
  if RingSize s <? RingRead s + dropped s bytes then RingSize s else 0.

(** The bytes between the two cursors, oldest first: what a [Read] that
    asks for everything delivers. *)
Definition buffered (s : AudioCapture) : list uint8 :=
  r_dest (fst (Read (usub (RingWrite s) (RingRead s)) s)).

(** The bytes a packet contributes to the stream. *)
Definition payload (s : AudioCapture) (p : packet) : list uint8 :=
  if is_silent p then replicate (Z.to_nat (packet_bytes s p)) x00
  else take (Z.to_nat (packet_bytes s p)) (data p).

(** A packet the capture thread can store: it is no longer than the ring,
    and unless it is silent its buffer holds that many bytes. *)
Record packet_ok (s : AudioCapture) (p : packet) : Prop := {
  pk_fits : packet_bytes s p <= RingSize s;
  pk_data : is_silent p = false ->
            (Z.to_nat (packet_bytes s p) <= length (data p))%nat
}.

(** An index inside the storage of the ring. *)
Definition in_ring (s : AudioCapture) (i : Z) : Prop := 0 <= i < RingSize s.

(** Ring indices written by the capture thread for one packet. *)
Definition CapturePacket_touched (p : packet) (s : AudioCapture) : list Z :=
  store_touched (RingSize s) (c_pos (locked_update s (packet_bytes s p)))
    (packet_bytes s p).

(** The last [n] elements of a list (all of it when it is shorter). *)
Definition keep_last (n : Z) (l : list uint8) : list uint8 :=
  drop (length l - Z.to_nat n) l.

(** The bytes a run of packets contributes, in order of arrival. *)
Definition stream (s : AudioCapture) (ps : list packet) : list uint8 :=
  concat (payload s <$> ps).

(** The calls of the consumer: Read, JumpToTime and Flush. *)
Definition is_consumer (c : call) : Prop :=
  match c with
  | CAppend _ => False
  | _ => True
  end.

(** Everything but the read cursor is the same in [s] and [s']. *)
Record same_producer_fields (s s' : AudioCapture) : Prop := {
  same_write : RingWrite s' = RingWrite s;
  same_timepos : RingTimePos s' = RingTimePos s;
  same_timevalue : RingTimeValue s' = RingTimeValue s;
  same_ring : Ring s' = Ring s;
  same_size : RingSize s' = RingSize s;
  same_rate : bytes_per_second s' = bytes_per_second s
}.

(** The time that belongs to offset [k], by the anchor. *)
Definition time_at (s : AudioCapture) (k : Z) : Q :=
  RingTimeValue s
  + (inject_Z k - inject_Z (RingTimePos s)) / inject_Z (bytes_per_second s).

(** The time of the newest byte. *)
Definition write_time (s : AudioCapture) : Q := time_at s (RingWrite s).



(** A 32-bit float format, in the words of the specification: 32 bits per
    sample in IEEE float encoding, which a format descriptor announces
    either by the tag WAVE_FORMAT_IEEE_FLOAT or by the tag
    WAVE_FORMAT_EXTENSIBLE with the IEEE-float sub-format. *)
Definition is_float32 (fmt : WAVEFORMATEXTENSIBLE) : bool :=
  (wBitsPerSample fmt =? 32)
  && ((wFormatTag fmt =? WAVE_FORMAT_IEEE_FLOAT)
      || ((wFormatTag fmt =? WAVE_FORMAT_EXTENSIBLE)
          && (SubFormat fmt =? KSDATAFORMAT_SUBTYPE_IEEE_FLOAT))).

(** The offset the specification gives for a target time, in unbounded
    integers. *)
Definition target_offset (time : Q) (s : AudioCapture) : Z :=
  RingTimePos s
  + round ((time - RingTimeValue s) * inject_Z (nSamplesPerSec (Format s)))
    * BytesPerSample s.

(** ** Concrete sessions *)

Module Scenario.

(** The object of the specification's scenarios: a ring of 10 bytes, one
    byte per sample, 10 samples per second. *)
Definition fmt10 : WAVEFORMATEXTENSIBLE :=
  {| wFormatTag := WAVE_FORMAT_EXTENSIBLE;
     nChannels := 1;
     nSamplesPerSec := 10;
     wBitsPerSample := 8;
     SubFormat := KSDATAFORMAT_SUBTYPE_IEEE_FLOAT |}.

(** What a new array happens to hold. *)
Definition stale : nat -> uint8 := fun _ => xff.

Definition object10 : AudioCapture :=
  {| Format := fmt10;
     Ring := replicate 10 xff;
     RingSize := 10;
     RingRead := 0;
     RingWrite := 0;
     RingTimePos := 0;
     RingTimeValue := 0%Q;
     BytesPerSample := 1 |}.

Definition sound (l : list uint8) (ticks : Z) : packet :=
  {| data := l; samples := Z.of_nat (length l); flags := 0; qpctime := ticks |}.

Definition silence (garbage : list uint8) (n ticks : Z) : packet :=
  {| data := garbage; samples := n; flags := AUDCLNT_BUFFERFLAGS_SILENT;
     qpctime := ticks |}.

Definition first4 : packet := sound [x01; x02; x03; x04] 0.
Definition next8 : packet :=
  sound [x05; x06; x07; x08; x09; x0a; x0b; x0c] 4000000.
Definition silent6 : packet := silence [xaa; xbb] 6 12000000.
Definition long25 : packet := sound (replicate 25 x11) 0.

(** Stereo float samples at 48 kHz, the usual mix format. *)
Definition fmt48k : WAVEFORMATEXTENSIBLE :=
  {| wFormatTag := WAVE_FORMAT_EXTENSIBLE;
     nChannels := 2;
     nSamplesPerSec := 48000;
     wBitsPerSample := 32;
     SubFormat := KSDATAFORMAT_SUBTYPE_IEEE_FLOAT |}.

(** The same with 64-bit float samples. *)
Definition fmt_f64 : WAVEFORMATEXTENSIBLE :=
  {| wFormatTag := WAVE_FORMAT_EXTENSIBLE;
     nChannels := 2;
     nSamplesPerSec := 48000;
     wBitsPerSample := 64;
     SubFormat := KSDATAFORMAT_SUBTYPE_IEEE_FLOAT |}.

(** 10 ms of silence, stamped 0. *)
Definition tick480 : packet := silence [] 480 0.

End Scenario.

(** ** Further notions for the ring *)

(** A call with arguments the object can take: a size of type [uint], a
    packet that can be stored. *)
Definition call_fits (s : AudioCapture) (c : call) : Prop :=
  match c with
  | CAppend p => packet_ok s p
  | CRead size => is_uint size
  | _ => True
  end.

(** Every field but the storage. *)
Definition bookkeeping (s : AudioCapture)
    : WAVEFORMATEXTENSIBLE * Z * Z * Z * Z * Q * Z :=
  (Format s, RingSize s, RingRead s, RingWrite s, RingTimePos s,
   RingTimeValue s, BytesPerSample s).


Definition room (s : AudioCapture) : Z :=
  RingSize s - (RingWrite s - RingRead s).

(** The duration of [n] bytes of the stream. *)
Definition seconds_of (s : AudioCapture) (n : Z) : Q :=
  inject_Z n / inject_Z (bytes_per_second s).

(** ** GetInfo *)

(** Modelled from the spec: the enumeration [AudioFormat] of audiocapture.h
    is not part of the sources at hand; [F32] is the member the source
    names, [I16] stands for the others. *)
Inductive AudioFormat :=
  | I16
  | F32.

(** Modelled from the spec: the structure [AudioInfo] of audiocapture.h is
    not part of the sources at hand; its fields are those [GetInfo] sets. *)
Record AudioInfo := {
  info_Format : AudioFormat;
  info_Channels : Z;
  info_SampleRate : Z;
  info_BytesPerSample : Z
}.

Definition GetInfo (s : AudioCapture) : AudioInfo :=
  {| info_Format := F32;
     info_Channels := nChannels (Format s);
     info_SampleRate := nSamplesPerSec (Format s);
     info_BytesPerSample := BytesPerSample s |}.

(** ** The pace of the capture thread *)

(** [bufferMs] of [CaptureThreadFunc], from the buffer size the client
    reports (in frames) and the sample rate of the format. *)
Definition bufferMs (BufferSize : Z) (s : AudioCapture) : Z :=
  to_int (umul 1000 BufferSize / nSamplesPerSec (Format s)).

(** The argument of [thread.Wait]: a division of [int]s. *)
Definition wait_ms (BufferSize : Z) (s : AudioCapture) : Z :=
  Z.quot (bufferMs BufferSize s) 2.

(** ** The list of devices *)

Inductive EDataFlow :=
  | eRender
  | eCapture
  | eAll.

(** An endpoint, as far as this file asks it: the results of opening its
    property store and of reading its friendly name, and that name. *)
Record IMMDevice := {
  hrOpenPropertyStore : Z;
  hrGetValue : Z;
  pwszVal : string
}.

Record AudioDevice := {
  Device : IMMDevice;
  Flow : EDataFlow;
  IsDefault : bool
}.

Definition SUCCEEDED (hr : Z) : bool := negb (FAILED hr).

(** What the device enumerator answers to [InitAudioCapture]: the result
    of each call, the two default endpoints, and for each collection the
    result of [Item (i)] with the endpoint it yields. *)
Record endpoints := {
  hrCoInitializeEx : Z;
  hrCoCreateInstance : Z;
  hrGetDefaultRender : Z;
  defltdev_render : IMMDevice;
  hrEnumRender : Z;
  hrGetCountRender : Z;
  collection_render : list (Z * IMMDevice);
  hrGetDefaultCapture : Z;
  defltdev_capture : IMMDevice;
  hrEnumCapture : Z;
  hrGetCountCapture : Z;
  collection_capture : list (Z * IMMDevice)
}.

(** The loop over a collection: [CHECK (Item (i, dev))], then
    [Devices += AudioDevice { dev, flow, false }]. *)
Fixpoint add_items (flow : EDataFlow) (items : list (Z * IMMDevice))
    (Devices : list AudioDevice) : outcome (list AudioDevice) :=
  match items with
  | [] => Started Devices
  | (hr, dev) :: rest =>
      CHECK hr
        (add_items flow rest
           (Devices ++ [{| Device := dev; Flow := flow; IsDefault := false |}]))
  end.

Definition and_then {A B} (x : outcome A) (k : A -> outcome B) : outcome B :=
  match x with
  | Fatal => Fatal
  | Started a => k a
  end.

(** [InitAudioCapture], on the global array [Devices] as it finds it. *)
Definition InitAudioCapture (e : endpoints) (Devices : list AudioDevice)
    : outcome (list AudioDevice) :=
  CHECK (hrCoInitializeEx e) (
  CHECK (hrCoCreateInstance e) (
  CHECK (hrGetDefaultRender e) (
    let Devices :=
      Devices ++ [{| Device := defltdev_render e; Flow := eRender;
                     IsDefault := true |}] in
  CHECK (hrEnumRender e) (
  CHECK (hrGetCountRender e) (
  and_then (add_items eRender (collection_render e) Devices) (fun Devices =>
    let Devices :=
      if SUCCEEDED (hrGetDefaultCapture e)
      then Devices ++ [{| Device := defltdev_capture e; Flow := eCapture;
                          IsDefault := true |}]
      else Devices in
  CHECK (hrEnumCapture e) (
  CHECK (hrGetCountCapture e) (
  add_items eCapture (collection_capture e) Devices)))))))).

(** The name [GetAudioDevices] finds for one device, if it finds one. *)
Definition device_name (device_info : AudioDevice) : option string :=
  if IsDefault device_info
  then Some (match Flow device_info with
             | eRender => "Default output (System Sound)"
             | _ => "Default input (Microphone)"
             end)
  else if FAILED (hrOpenPropertyStore (Device device_info)) then None
  else if FAILED (hrGetValue (Device device_info)) then None
  else Some ((match Flow device_info with
              | eRender => "Output: "
              | _ => "Input: "
              end) +:+ pwszVal (Device device_info)).

(** [GetAudioDevices]: [into] is cleared, then receives one name for each
    device that has one, in the order of [Devices]. *)
Definition GetAudioDevices (Devices : list AudioDevice) (into : list string)
    : list string :=
  foldl (fun into device_info =>
           match device_name device_info with
           | Some name => into ++ [name]
           | None => into
           end) [] Devices.

(** The test of the constructor on the device it is given. *)
Definition is_loopback (device_info : AudioDevice) : bool :=
  match Flow device_info with
  | eRender => true
  | _ => false
  end.

(** A name that announces an output device. *)
Definition names_output (name : string) : bool :=
  String.prefix "Output: " name
  || String.eqb name "Default output (System Sound)".

(** The entry [InitAudioCapture] makes for an endpoint. *)
Definition entry (flow : EDataFlow) (isDefault : bool) (dev : IMMDevice)
    : AudioDevice :=
  {| Device := dev; Flow := flow; IsDefault := isDefault |}.

(** The output entries and the input entries one enumeration yields. *)
Definition found_outputs (e : endpoints) : list AudioDevice :=
  entry eRender true (defltdev_render e)
  :: (entry eRender false ∘ snd <$> collection_render e).

Definition found_inputs (e : endpoints) : list AudioDevice :=
  (if SUCCEEDED (hrGetDefaultCapture e)
   then [entry eCapture true (defltdev_capture e)] else [])
  ++ (entry eCapture false ∘ snd <$> collection_capture e).

(** The results that [InitAudioCapture] puts under [CHECK]. *)
Definition checked_results (e : endpoints) : list Z :=
  [hrCoInitializeEx e; hrCoCreateInstance e; hrGetDefaultRender e;
   hrEnumRender e; hrGetCountRender e]
  ++ (fst <$> collection_render e)
  ++ [hrEnumCapture e; hrGetCountCapture e]
  ++ (fst <$> collection_capture e).

(** ** Concrete endpoints *)

Module Desk.

Definition speakers : IMMDevice :=
  {| hrOpenPropertyStore := 0; hrGetValue := 0; pwszVal := "Speakers" |}.

Definition headset : IMMDevice :=
  {| hrOpenPropertyStore := 0; hrGetValue := 0; pwszVal := "Headset" |}.

Definition microphone : IMMDevice :=
  {| hrOpenPropertyStore := 0; hrGetValue := 0; pwszVal := "Microphone" |}.

(** E_NOTFOUND, as a signed HRESULT. *)
Definition E_NOTFOUND : Z := -2147023728.

(** A machine with two outputs and one microphone. *)
Definition desk : endpoints :=
  {| hrCoInitializeEx := 0;
     hrCoCreateInstance := 0;
     hrGetDefaultRender := 0;
     defltdev_render := speakers;
     hrEnumRender := 0;
     hrGetCountRender := 0;
     collection_render := [(0, speakers); (0, headset)];
     hrGetDefaultCapture := 0;
     defltdev_capture := microphone;
     hrEnumCapture := 0;
     hrGetCountCapture := 0;
     collection_capture := [(0, microphone)] |}.

(** The same machine with the microphone unplugged. *)
Definition desk_without_microphone : endpoints :=
  {| hrCoInitializeEx := 0;
     hrCoCreateInstance := 0;
     hrGetDefaultRender := 0;
     defltdev_render := speakers;
     hrEnumRender := 0;
     hrGetCountRender := 0;
     collection_render := [(0, speakers); (0, headset)];
     hrGetDefaultCapture := E_NOTFOUND;
     defltdev_capture := microphone;
     hrEnumCapture := 0;
     hrGetCountCapture := 0;
     collection_capture := [] |}.

(** The ring of the scenarios on an array that happened to be zero. *)
Definition blank10 : AudioCapture :=
  {| Format := Scenario.fmt10;
     Ring := replicate 10 x00;
     RingSize := 10;
     RingRead := 0;
     RingWrite := 0;
     RingTimePos := 0;
     RingTimeValue := 0%Q;
     BytesPerSample := 1 |}.

End Desk.

(** ** The whole constructor *)

Definition AUDCLNT_STREAMFLAGS_LOOPBACK : Z := 0x00020000.

(** What the platform answers to the constructor: the result of every call
    it puts under [CHECK], in the order of the source, with the mix format,
    the buffer size and the new array that come back. *)
Record platform := {
  hr_CoInitializeEx : Z;
  hr_sink_Activate : Z;
  hr_sink_GetMixFormat : Z;
  hr_sink_Initialize : Z;
  hr_sink_GetBufferSize : Z;
  hr_sink_GetService : Z;
  hr_sink_GetBuffer : Z;
  hr_sink_Start : Z;
  hr_Activate : Z;
  hr_GetMixFormat : Z;
  mix_format : WAVEFORMATEXTENSIBLE;
  new_array : nat -> uint8;
  hr_Initialize : Z;
  hr_GetBufferSize : Z;
  client_BufferSize : Z;
  hr_GetService : Z;
  hr_Start : Z
}.

(** The object once the constructor is through. *)
Record session := {
  capture : AudioCapture;
  PlaybackClient : bool;
  session_BufferSize : Z;
  streamFlags : Z
}.

(** The silent playback client of a loopback session (the block under
    [if (is_loopback)]); the result tells that [PlaybackClient] is set. *)
Definition keep_alive (pl : platform) : outcome bool :=
  CHECK (hr_sink_Activate pl) (
  CHECK (hr_sink_GetMixFormat pl) (
  CHECK (hr_sink_Initialize pl) (
  CHECK (hr_sink_GetBufferSize pl) (
  CHECK (hr_sink_GetService pl) (
  CHECK (hr_sink_GetBuffer pl) (
  CHECK (hr_sink_Start pl) (Started true))))))).

(** The constructor from its first line to its last, for the device it
    finds at [Devices [cfg.AudioOutputIndex]]; [AudioCapture_WASAPI] above
    is its middle part. *)
Definition construct (pl : platform) (device_info : AudioDevice)
    : outcome session :=
  CHECK (hr_CoInitializeEx pl) (
  and_then (if is_loopback device_info then keep_alive pl else Started false)
    (fun playback =>
  and_then (AudioCapture_WASAPI (hr_Activate pl) (hr_GetMixFormat pl)
              (mix_format pl) (new_array pl))
    (fun object =>
  let flags := if is_loopback device_info
               then AUDCLNT_STREAMFLAGS_LOOPBACK else 0 in
  CHECK (hr_Initialize pl) (
  CHECK (hr_GetBufferSize pl) (
  CHECK (hr_GetService pl) (
  CHECK (hr_Start pl) (
  Started {| capture := object;
             PlaybackClient := playback;
             session_BufferSize := client_BufferSize pl;
             streamFlags := flags |}))))))).

(** The results the constructor checks for a device. *)
Definition constructor_checks (pl : platform) (device_info : AudioDevice)
    : list Z :=
  [hr_CoInitializeEx pl]
  ++ (if is_loopback device_info
      then [hr_sink_Activate pl; hr_sink_GetMixFormat pl;
            hr_sink_Initialize pl; hr_sink_GetBufferSize pl;
            hr_sink_GetService pl; hr_sink_GetBuffer pl; hr_sink_Start pl]
      else [])
  ++ [hr_Activate pl; hr_GetMixFormat pl; hr_Initialize pl;
      hr_GetBufferSize pl; hr_GetService pl; hr_Start pl].

(** ** Between the locked section and the copy *)

(** The object as another thread finds it after the capture thread has
    left the locked section for a packet and before it has copied the
    packet: cursors and anchor are those of the packet, the storage is
    still the old one. *)
Definition CapturePacket_locked (p : packet) (s : AudioCapture) : AudioCapture :=
  let bytes := packet_bytes s p in
  let c := locked_update s bytes in
  {| Format := Format s;
     Ring := Ring s;
     RingSize := RingSize s;
     RingRead := c_read c;
     RingWrite := c_write c;
     RingTimePos := c_timepos c;
     RingTimeValue := packet_time p;
     BytesPerSample := BytesPerSample s |}.

Definition set_Ring (s : AudioCapture) (ring : list uint8) : AudioCapture :=
  {| Format := Format s;
     Ring := ring;
     RingSize := RingSize s;
     RingRead := RingRead s;
     RingWrite := RingWrite s;
     RingTimePos := RingTimePos s;
     RingTimeValue := RingTimeValue s;
     BytesPerSample := BytesPerSample s |}.

(** ** Time stamps as binary64 rounds them *)

(** The two expressions that produce time stamps, evaluated with the
    operations of binary64 (round to nearest even) where [packet_time] and
    [read_time] take the exact values.  [of_uint] is the conversion of an
    unsigned integer below 2^63 to [double]. *)
Module Binary64.

Definition of_uint (z : Z) : PrimFloat.float := PrimFloat.of_uint63 (Uint63.of_Z z).

(** [(double) qpctime / REFPERSEC] *)
Definition packet_time (p : packet) : PrimFloat.float :=
  PrimFloat.div (of_uint (qpctime p)) (of_uint REFPERSEC).

(** The time stamp of [Read], [latest] being the packet whose time stamp
    [RingTimeValue] holds. *)
Definition read_time (latest : packet) (s : AudioCapture) : PrimFloat.float :=
  PrimFloat.add (packet_time latest)
    (PrimFloat.div
       (PrimFloat.sub (of_uint (RingRead s)) (of_uint (RingTimePos s)))
       (of_uint (bytes_per_second s))).

End Binary64.

(** ** More concrete inputs *)

Module Cases.

(** Twenty-five bytes, numbered, stamped 0: more than the ring of ten. *)
Definition count25 : packet :=
  Scenario.sound
    [x01; x02; x03; x04; x05; x06; x07; x08; x09; x0a; x0b; x0c; x0d;
     x0e; x0f; x10; x11; x12; x13; x14; x15; x16; x17; x18; x19] 0.



(** Stereo 32-bit float at 48 kHz under the plain format tag. *)
Definition fmt_plain32 : WAVEFORMATEXTENSIBLE :=
  {| wFormatTag := WAVE_FORMAT_IEEE_FLOAT;
     nChannels := 2;
     nSamplesPerSec := 48000;
     wBitsPerSample := 32;
     SubFormat := 0 |}.

(** A platform on which every call succeeds. *)
Definition studio (fmt : WAVEFORMATEXTENSIBLE) : platform :=
  {| hr_CoInitializeEx := 0;
     hr_sink_Activate := 0;
     hr_sink_GetMixFormat := 0;
     hr_sink_Initialize := 0;
     hr_sink_GetBufferSize := 0;
     hr_sink_GetService := 0;
     hr_sink_GetBuffer := 0;
     hr_sink_Start := 0;
     hr_Activate := 0;
     hr_GetMixFormat := 0;
     mix_format := fmt;
     new_array := Scenario.stale;
     hr_Initialize := 0;
     hr_GetBufferSize := 0;
     client_BufferSize := 960;
     hr_GetService := 0;
     hr_Start := 0 |}.

(** The default output of the desk. *)
Definition loudspeaker : AudioDevice := entry eRender true Desk.speakers.

End Cases.

(** ** Tactics *)

Ltac machine :=
  unfold uadd, usub, umul, wrap32 in *;
  change (2 ^ 32) with 4294967296 in *;
  change (2 ^ 31) with 2147483648 in *;
  Z.div_mod_to_equations; lia.

Ltac evaluate :=
  vm_compute; repeat split; first [reflexivity | discriminate | lia].

(** ** Arithmetic of the cursors *)

Lemma wrap32_range z : 0 <= wrap32 z < 2 ^ 32.
Proof. unfold wrap32. apply Z.mod_pos_bound. lia. Qed.

Lemma wrap32_small z : 0 <= z < 2 ^ 32 -> wrap32 z = z.
Proof. intros H. unfold wrap32. apply Z.mod_small. exact H. Qed.

Lemma to_int_small z : 0 <= z < 2 ^ 31 -> to_int z = z.
Proof.
  intros H. unfold to_int. rewrite wrap32_small by lia.
  destruct (Z.ltb_spec z (2 ^ 31)); lia.
Qed.

Lemma to_int_cases z :
  0 <= z < 2 ^ 32 ->
  (z < 2 ^ 31 /\ to_int z = z) \/ (2 ^ 31 <= z /\ to_int z = z - 2 ^ 32).
Proof.
  intros H. unfold to_int. rewrite wrap32_small by lia.
  destruct (Z.ltb_spec z (2 ^ 31)); lia.
Qed.

Lemma Min_spec a b : Min a b = Z.min a b.
Proof. unfold Min. destruct (Z.ltb_spec a b); lia. Qed.

Lemma Clamp_between v lo hi :
  lo <= hi -> lo <= Clamp v lo hi <= hi.
Proof.
  intros H. unfold Clamp.
  destruct (Z.ltb_spec v lo); [lia|]. destruct (Z.ltb_spec hi v); lia.
Qed.

Lemma Clamp_crossed v lo hi :
  hi < lo -> Clamp v lo hi = lo \/ Clamp v lo hi = hi.
Proof.
  intros H. unfold Clamp.
  destruct (Z.ltb_spec v lo); [now left|].
  destruct (Z.ltb_spec hi v); [now right|lia].
Qed.

Lemma locked_update_pos s bytes :
  c_pos (locked_update s bytes) = RingWrite s mod RingSize s.
Proof.
  unfold locked_update. cbv zeta.
  destruct (RingSize s <? _); reflexivity.
Qed.

(** The cursors after the locked section, for a packet of any length. *)
Lemma locked_update_bounds s bytes :
  ring_ok s -> is_uint bytes ->
  let c := locked_update s bytes in
  0 <= c_read c /\ c_read c <= c_write c /\ c_write c < 2 ^ 32
  /\ c_write c <= c_read c + RingSize s
  /\ c_pos c = RingWrite s mod RingSize s.
Proof.
  intros [Hsz _ _ Hr Ho Hw Hf] Hb. unfold is_uint in Hb. unfold locked_update.
  set (cap := RingSize s) in *. set (R := RingRead s) in *.
  set (W := RingWrite s) in *.
  assert (Hav : usub cap (usub W R) = cap - (W - R)) by machine.
  rewrite Hav.
  destruct (Z.ltb_spec (cap - (W - R)) bytes) as [Hov|Hov].
  - destruct (Z.ltb_spec cap (uadd R (usub bytes (cap - (W - R))))) as [Hre|Hre];
      cbn [c_read c_write c_timepos c_pos]; repeat split; try machine.
  - destruct (Z.ltb_spec cap R) as [Hre|Hre];
      cbn [c_read c_write c_timepos c_pos]; repeat split; try machine.
Qed.

(** The same for a packet that fits into the ring: no counter wraps, and
    all three offsets are moved down together when the read cursor has
    passed the size of the ring. *)
Lemma locked_update_exact s bytes :
  ring_ok s -> 0 <= bytes <= RingSize s ->
  let c := locked_update s bytes in
  c_read c = RingRead s + dropped s bytes - rebase s bytes
  /\ c_write c = RingWrite s + bytes - rebase s bytes
  /\ c_timepos c = RingWrite s - rebase s bytes
  /\ c_pos c = RingWrite s mod RingSize s
  /\ rebase s bytes <= RingWrite s.
Proof.
  intros [Hsz _ _ Hr Ho Hw Hf] Hb. unfold locked_update, rebase, dropped.
  set (cap := RingSize s) in *. set (R := RingRead s) in *.
  set (W := RingWrite s) in *.
  assert (Hav : usub cap (usub W R) = cap - (W - R)) by machine.
  rewrite Hav.
  destruct (Z.ltb_spec (cap - (W - R)) bytes) as [Hov|Hov].
  - assert (Hrd : uadd R (usub bytes (cap - (W - R))) = W + bytes - cap) by machine.
    rewrite Hrd.
    replace (R + Z.max 0 (bytes - (cap - (W - R)))) with (W + bytes - cap) by lia.
    destruct (Z.ltb_spec cap (W + bytes - cap));
      cbn [c_read c_write c_timepos c_pos]; repeat split; try machine.
  - replace (R + Z.max 0 (bytes - (cap - (W - R)))) with R by lia.
    destruct (Z.ltb_spec cap R);
      cbn [c_read c_write c_timepos c_pos]; repeat split; try machine.
Qed.

(** ** The storage *)

Lemma mod_once x c :
  0 < c -> 0 <= x < 2 * c -> x mod c = if x <? c then x else x - c.
Proof.
  intros Hc Hx. destruct (Z.ltb_spec x c).
  - apply Z.mod_small. lia.
  - symmetry. apply (Z.mod_unique x c 1); lia.
Qed.

Lemma mod_shift x c : 0 < c -> (x - c) mod c = x mod c.
Proof.
  intros Hc. replace (x - c) with (x + (-1) * c) by lia.
  apply Z.mod_add. lia.
Qed.

(** Two offsets less than the size apart fall on different cells. *)
Lemma mod_apart a b c :
  0 < c -> a < b < a + c -> a mod c <> b mod c.
Proof.
  intros Hc Hab Heq.
  assert (Hd : (b - a) mod c = 0).
  { rewrite Zminus_mod, Heq, Z.sub_diag. apply Z.mod_0_l. lia. }
  rewrite Z.mod_small in Hd; lia.
Qed.

(** [touched] lists what a store can change: a cell whose index is not in
    it keeps its byte. *)
Lemma memcpy_outside dst off src n (j : nat) :
  0 <= off -> Z.of_nat j ∉ touched off n ->
  memcpy dst off src n !! j = dst !! j.
Proof.
  intros Hoff Hout. unfold memcpy.
  destruct (decide (j < Z.to_nat off)%nat) as [Hlt|Hge].
  - now apply list_lookup_inserts_lt.
  - apply list_lookup_inserts_ge. rewrite length_take.
    destruct (decide (Z.to_nat off + Z.to_nat n <= j)%nat) as [Hfar|Hnear]; [lia|].
    exfalso. apply Hout. unfold touched.
    apply list_elem_of_fmap. exists (j - Z.to_nat off)%nat.
    split; [lia|]. apply elem_of_seq. lia.
Qed.

Lemma memset_outside dst off v n (j : nat) :
  0 <= off -> Z.of_nat j ∉ touched off n ->
  memset dst off v n !! j = dst !! j.
Proof.
  intros Hoff Hout. unfold memset.
  destruct (decide (j < Z.to_nat off)%nat) as [Hlt|Hge].
  - now apply list_lookup_inserts_lt.
  - apply list_lookup_inserts_ge. rewrite length_replicate.
    destruct (decide (Z.to_nat off + Z.to_nat n <= j)%nat) as [Hfar|Hnear]; [lia|].
    exfalso. apply Hout. unfold touched.
    apply list_elem_of_fmap. exists (j - Z.to_nat off)%nat.
    split; [lia|]. apply elem_of_seq. lia.
Qed.

(** No cell outside [store_touched] is changed by the copy of a packet. *)
Lemma store_packet_outside ring size pos bytes silent src (j : nat) :
  0 <= pos -> Z.of_nat j ∉ store_touched size pos bytes ->
  store_packet ring size pos bytes silent src !! j = ring !! j.
Proof.
  intros Hpos Hout. unfold store_touched in Hout. unfold store_packet.
  rewrite elem_of_app in Hout.
  destruct silent.
  - rewrite memset_outside by (try lia; tauto).
    apply memset_outside; [lia|tauto].
  - rewrite memcpy_outside by (try lia; tauto).
    apply memcpy_outside; [lia|tauto].
Qed.

Lemma store_packet_length ring size pos bytes silent src :
  length (store_packet ring size pos bytes silent src) = length ring.
Proof.
  unfold store_packet, memset, memcpy.
  destruct silent; now rewrite !length_inserts.
Qed.

(** A silent packet is stored like a packet of zeros. *)
Lemma store_packet_silent ring size pos bytes src :
  0 <= pos < size -> size < 2 ^ 32 -> 0 <= bytes < 2 ^ 32 ->
  store_packet ring size pos bytes true src
  = store_packet ring size pos bytes false (replicate (Z.to_nat bytes) x00).
Proof.
  intros Hp Hs Hb. unfold store_packet, memset, memcpy.
  rewrite Min_spec.
  assert (H1 : usub size pos = size - pos) by machine. rewrite H1.
  set (chunk1 := Z.min bytes (size - pos)).
  assert (H2 : usub bytes chunk1 = bytes - chunk1) by (subst chunk1; machine).
  rewrite H2, drop_replicate, !take_replicate.
  f_equal; [f_equal; lia|]. f_equal. f_equal. lia.
Qed.

Section Store.

Variables (ring src : list uint8) (cap pos bytes : Z).
Hypothesis Hlen : length ring = Z.to_nat cap.
Hypothesis Hcap : 0 < cap < 2 ^ 32.
Hypothesis Hpos : 0 <= pos < cap.
Hypothesis Hbytes : 0 <= bytes <= cap.
Hypothesis Hsrc : (Z.to_nat bytes <= length src)%nat.

(** Byte [i] of the packet lands [i] cells after [pos], around the end. *)
Lemma store_packet_hit i :
  0 <= i < bytes ->
  store_packet ring cap pos bytes false src !! Z.to_nat ((pos + i) mod cap)
  = src !! Z.to_nat i.
Proof using Hlen Hcap Hpos Hbytes Hsrc.
  intros Hi. unfold store_packet, memcpy.
  rewrite Min_spec.
  assert (H1 : usub cap pos = cap - pos) by machine. rewrite H1.
  set (chunk1 := Z.min bytes (cap - pos)).
  assert (H2 : usub bytes chunk1 = bytes - chunk1) by (subst chunk1; machine).
  rewrite H2, mod_once by lia.
  destruct (Z.ltb_spec (pos + i) cap) as [Hin|Hout].
  - rewrite list_lookup_inserts_ge
      by (rewrite length_take, length_drop; subst chunk1; lia).
    rewrite list_lookup_inserts
      by (rewrite ?length_take; subst chunk1; lia).
    rewrite lookup_take_lt by (subst chunk1; lia).
    f_equal. lia.
  - rewrite list_lookup_inserts
      by (rewrite ?length_inserts, ?length_take, ?length_drop; subst chunk1; lia).
    rewrite lookup_take_lt by (subst chunk1; lia).
    rewrite lookup_drop. f_equal. subst chunk1. lia.
Qed.

(** Cells that no byte of the packet lands on keep their content. *)
Lemma store_packet_miss j :
  0 <= j < cap ->
  (forall i, 0 <= i < bytes -> (pos + i) mod cap <> j) ->
  store_packet ring cap pos bytes false src !! Z.to_nat j = ring !! Z.to_nat j.
Proof using Hlen Hcap Hpos Hbytes Hsrc.
  intros Hj Hmiss. unfold store_packet, memcpy.
  rewrite Min_spec.
  assert (H1 : usub cap pos = cap - pos) by machine. rewrite H1.
  set (chunk1 := Z.min bytes (cap - pos)).
  assert (H2 : usub bytes chunk1 = bytes - chunk1) by (subst chunk1; machine).
  rewrite H2.
  assert (Hlow : ~ (j < bytes - chunk1)).
  { intros Hlt. apply (Hmiss (j + cap - pos)); [subst chunk1; lia|].
    rewrite mod_once by lia.
    destruct (Z.ltb_spec (pos + (j + cap - pos)) cap); lia. }
  assert (Hmid : ~ (pos <= j < pos + chunk1)).
  { intros Hin. apply (Hmiss (j - pos)); [subst chunk1; lia|].
    rewrite mod_once by lia.
    destruct (Z.ltb_spec (pos + (j - pos)) cap); lia. }
  rewrite list_lookup_inserts_ge
    by (rewrite length_take, length_drop; subst chunk1; lia).
  destruct (Z.lt_ge_cases j pos).
  - rewrite list_lookup_inserts_lt by lia. reflexivity.
  - rewrite list_lookup_inserts_ge
      by (rewrite length_take; subst chunk1; lia).
    reflexivity.
Qed.

End Store.

Section Fetch.

Variables (ring : list uint8) (cap pos n : Z).
Hypothesis Hlen : length ring = Z.to_nat cap.
Hypothesis Hcap : 0 < cap < 2 ^ 32.
Hypothesis Hpos : 0 <= pos < cap.
Hypothesis Hn : 0 <= n <= cap.

Lemma fetch_chunks :
  Min n (usub cap pos) = Z.min n (cap - pos)
  /\ usub n (Min n (usub cap pos)) = n - Z.min n (cap - pos).
Proof using Hlen Hcap Hpos Hn.
  rewrite Min_spec.
  assert (H1 : usub cap pos = cap - pos) by machine. rewrite H1.
  split; [reflexivity|]. machine.
Qed.

Lemma fetch_wrapped_length :
  length (fetch ring pos (Min n (usub cap pos))
          ++ fetch ring 0 (usub n (Min n (usub cap pos))))
  = Z.to_nat n.
Proof using Hlen Hcap Hpos Hn.
  destruct fetch_chunks as [Hc Hu]. unfold fetch. rewrite Hu, Hc.
  rewrite length_app, !length_take, !length_drop. lia.
Qed.

Lemma fetch_wrapped_lookup i :
  0 <= i < n ->
  (fetch ring pos (Min n (usub cap pos))
   ++ fetch ring 0 (usub n (Min n (usub cap pos)))) !! Z.to_nat i
  = ring !! Z.to_nat ((pos + i) mod cap).
Proof using Hlen Hcap Hpos Hn.
  intros Hi. destruct fetch_chunks as [Hc Hu]. unfold fetch.
  rewrite Hu, Hc, mod_once by lia.
  destruct (Z.ltb_spec (pos + i) cap) as [Hin|Hout].
  - rewrite lookup_app_l by (rewrite length_take, length_drop; lia).
    rewrite lookup_take_lt by lia. rewrite lookup_drop. f_equal. lia.
  - rewrite lookup_app_r by (rewrite length_take, length_drop; lia).
    rewrite length_take, length_drop.
    rewrite lookup_take_lt by lia. rewrite lookup_drop. f_equal. lia.
Qed.

End Fetch.

(** ** What the ring holds *)

Lemma packet_bytes_range s p : is_uint (packet_bytes s p).
Proof. apply wrap32_range. Qed.

Lemma payload_length s p :
  packet_ok s p -> length (payload s p) = Z.to_nat (packet_bytes s p).
Proof.
  intros [_ Hd]. unfold payload. destruct (is_silent p).
  - apply length_replicate.
  - rewrite length_take. specialize (Hd eq_refl). lia.
Qed.

Lemma Ring_CapturePacket s p :
  ring_ok s ->
  Ring (CapturePacket p s)
  = store_packet (Ring s) (RingSize s) (RingWrite s mod RingSize s)
      (packet_bytes s p) false (payload s p).
Proof.
  intros Hok. pose proof (packet_bytes_range s p) as Hb. unfold is_uint in Hb.
  destruct Hok as [Hsz _ _ _ _ _ _].
  assert (Hpos : 0 <= RingWrite s mod RingSize s < RingSize s)
    by (apply Z.mod_pos_bound; lia).
  cbn [CapturePacket Ring]. rewrite locked_update_pos.
  unfold payload. destruct (is_silent p).
  - apply store_packet_silent; lia.
  - unfold store_packet, memcpy. rewrite Min_spec.
    assert (H1 : usub (RingSize s) (RingWrite s mod RingSize s)
                 = RingSize s - RingWrite s mod RingSize s) by machine.
    rewrite H1.
    set (bytes := packet_bytes s p) in *.
    set (chunk1 := Z.min bytes (RingSize s - RingWrite s mod RingSize s)).
    assert (H2 : usub bytes chunk1 = bytes - chunk1) by (subst chunk1; machine).
    rewrite H2, take_take, !take_drop_commute, take_take.
    repeat f_equal; subst chunk1; lia.
Qed.

(** ** Every call keeps the object well formed *)

Lemma ring_ok_CapturePacket s p : ring_ok s -> ring_ok (CapturePacket p s).
Proof.
  intros Hok.
  destruct (locked_update_bounds s (packet_bytes s p) Hok (packet_bytes_range s p))
    as (H1 & H2 & H3 & H4 & _).
  destruct Hok as [Hsz Hrate Hst _ _ _ _].
  split; cbn [CapturePacket RingSize RingRead RingWrite Ring]; try assumption.
  now rewrite store_packet_length.
Qed.

Lemma ring_ok_set_RingRead s r :
  ring_ok s -> RingRead s <= r <= RingWrite s -> ring_ok (set_RingRead s r).
Proof.
  intros [Hsz Hrate Hst Hr Ho Hw Hf] Hbetween.
  split; cbn [set_RingRead RingSize RingRead RingWrite Ring];
    try assumption; lia.
Qed.

Lemma Read_size s size :
  ring_ok s -> is_uint size ->
  r_size (fst (Read size s)) = Z.min size (RingWrite s - RingRead s)
  /\ RingRead (snd (Read size s)) = RingRead s + r_size (fst (Read size s)).
Proof.
  intros [Hsz _ _ Hr Ho Hw Hf] Hu. unfold is_uint in Hu.
  cbn [Read fst snd r_size set_RingRead RingRead].
  rewrite Min_spec.
  assert (H1 : usub (RingWrite s) (RingRead s) = RingWrite s - RingRead s)
    by machine.
  rewrite H1. split; [reflexivity|]. machine.
Qed.

Lemma Read_state s size :
  snd (Read size s) = set_RingRead s (uadd (RingRead s) (r_size (fst (Read size s)))).
Proof. reflexivity. Qed.

Lemma ring_ok_Read s size :
  ring_ok s -> is_uint size -> ring_ok (snd (Read size s)).
Proof.
  intros Hok Hu. destruct (Read_size s size Hok Hu) as [Hs Hr].
  rewrite Read_state. apply ring_ok_set_RingRead; [assumption|].
  rewrite Read_state in Hr. cbn [set_RingRead RingRead] in Hr. rewrite Hr, Hs.
  destruct Hok, Hu. lia.
Qed.

(** Whatever the target, the read cursor ends between its old value and
    the write cursor. *)
Lemma jump_by_between s d :
  ring_ok s ->
  RingRead s <= RingRead (jump_by d s) <= RingWrite s.
Proof.
  intros [Hsz _ _ Hr Ho Hw Hf]. cbn [jump_by set_RingRead RingRead].
  set (v := to_int _).
  destruct (to_int_cases (RingRead s)) as [[HR ER]|[HR ER]]; [lia| |];
    destruct (to_int_cases (RingWrite s)) as [[HW EW]|[HW EW]]; try lia;
    rewrite ER, EW.
  - pose proof (Clamp_between v (RingRead s) (RingWrite s) Ho).
    rewrite wrap32_small; lia.
  - destruct (Clamp_crossed v (RingRead s) (RingWrite s - 2 ^ 32)) as [E|E];
      [lia| |]; rewrite E; machine.
  - pose proof (Clamp_between v (RingRead s - 2 ^ 32) (RingWrite s - 2 ^ 32)).
    machine.
Qed.

Lemma ring_ok_jump_by s d : ring_ok s -> ring_ok (jump_by d s).
Proof.
  intros Hok. apply ring_ok_set_RingRead; [assumption|].
  apply (jump_by_between s d Hok).
Qed.

Lemma ring_ok_Flush s : ring_ok s -> ring_ok (Flush s).
Proof.
  intros Hok. apply ring_ok_set_RingRead; [assumption|]. destruct Hok. lia.
Qed.

Lemma ring_ok_step s c : ring_ok s -> call_ok c -> ring_ok (step s c).
Proof.
  intros Hok Hc. destruct c; cbn [step].
  - now apply ring_ok_CapturePacket.
  - now apply ring_ok_Read.
  - now apply ring_ok_jump_by.
  - now apply ring_ok_Flush.
Qed.

Lemma ring_ok_run cs : forall s,
  ring_ok s -> Forall call_ok cs -> ring_ok (run cs s).
Proof.
  induction cs as [|c cs IH]; intros s Hok Hcs; [exact Hok|].
  inversion Hcs as [|? ? Hc Hrest]; subst.
  cbn [run foldl]. apply IH; [|assumption]. now apply ring_ok_step.
Qed.

(** The constructor delivers a well-formed object whenever the ring it
    sizes is not empty and below 2 GiB. *)
Lemma ring_ok_constructor a g fmt fresh s :
  AudioCapture_WASAPI a g fmt fresh = Started s ->
  0 < RingSize s < 2 ^ 31 ->
  ring_ok s /\ RingRead s = 0 /\ RingWrite s = 0 /\ Format s = fmt.
Proof.
  unfold AudioCapture_WASAPI, CHECK, ASSERT.
  destruct (FAILED a); [discriminate|]. destruct (FAILED g); [discriminate|].
  destruct (float_encoded fmt); [|discriminate].
  intros [= <-]. cbn. intros Hsz.
  repeat split; cbn; try lia.
  - unfold bytes_per_second. cbn. unfold umul. f_equal. lia.
  - now rewrite length_fmap, length_seq.
Qed.

(** ** Reading, as seen on the stored bytes *)

Lemma ring_ok_pos s :
  ring_ok s -> 0 <= RingRead s mod RingSize s < RingSize s.
Proof. intros [Hsz _ _ _ _ _ _]. apply Z.mod_pos_bound. lia. Qed.

Lemma Read_length s size :
  ring_ok s -> is_uint size ->
  length (r_dest (fst (Read size s))) = Z.to_nat (r_size (fst (Read size s))).
Proof.
  intros Hok Hu. destruct (Read_size s size Hok Hu) as [Hs _].
  pose proof (ring_ok_pos s Hok). destruct Hok, Hu.
  cbn [Read fst r_dest r_size] in *.
  apply fetch_wrapped_length; lia.
Qed.

Lemma Read_lookup s size i :
  ring_ok s -> is_uint size -> 0 <= i < r_size (fst (Read size s)) ->
  r_dest (fst (Read size s)) !! Z.to_nat i
  = Ring s !! Z.to_nat ((RingRead s + i) mod RingSize s).
Proof.
  intros Hok Hu Hi. destruct (Read_size s size Hok Hu) as [Hs _].
  pose proof (ring_ok_pos s Hok). destruct Hok, Hu.
  cbn [Read fst r_dest r_size] in *.
  rewrite <- Zplus_mod_idemp_l.
  apply fetch_wrapped_lookup; lia.
Qed.

Lemma buffered_length s :
  ring_ok s -> length (buffered s) = Z.to_nat (RingWrite s - RingRead s).
Proof.
  intros Hok. unfold buffered.
  assert (Hu : is_uint (usub (RingWrite s) (RingRead s))) by apply wrap32_range.
  rewrite Read_length by assumption.
  destruct (Read_size s _ Hok Hu) as [-> _]. destruct Hok. f_equal. machine.
Qed.

Lemma buffered_lookup s i :
  ring_ok s -> 0 <= i < RingWrite s - RingRead s ->
  buffered s !! Z.to_nat i
  = Ring s !! Z.to_nat ((RingRead s + i) mod RingSize s).
Proof.
  intros Hok Hi. unfold buffered.
  assert (Hu : is_uint (usub (RingWrite s) (RingRead s))) by apply wrap32_range.
  apply Read_lookup; try assumption.
  destruct (Read_size s _ Hok Hu) as [-> _]. destruct Hok. machine.
Qed.

(** Two lists of one length that agree at every index below it. *)
Lemma list_eq_upto (l1 l2 : list uint8) (n : Z) :
  length l1 = Z.to_nat n -> length l2 = Z.to_nat n ->
  (forall i, 0 <= i < n -> l1 !! Z.to_nat i = l2 !! Z.to_nat i) ->
  l1 = l2.
Proof.
  intros H1 H2 Hi. apply list_eq. intros k.
  destruct (decide (k < length l1)%nat) as [Hk|Hk].
  - rewrite <- (Nat2Z.id k). apply Hi. lia.
  - rewrite !lookup_ge_None_2 by lia. reflexivity.
Qed.

(** [Read] hands out the oldest buffered bytes and leaves the rest. *)
Lemma Read_buffered s size :
  ring_ok s -> is_uint size ->
  r_dest (fst (Read size s)) = take (Z.to_nat size) (buffered s)
  /\ buffered (snd (Read size s)) = drop (Z.to_nat size) (buffered s).
Proof.
  intros Hok Hu. destruct (Read_size s size Hok Hu) as [Hs Hr].
  pose proof (ring_ok_Read s size Hok Hu) as Hok'.
  pose proof (buffered_length s Hok) as Hbl.
  assert (Hn : 0 <= r_size (fst (Read size s)) <= RingWrite s - RingRead s)
    by (destruct Hok, Hu; lia).
  split.
  - apply (list_eq_upto _ _ (r_size (fst (Read size s)))).
    + now apply Read_length.
    + rewrite length_take, Hbl. destruct Hu. lia.
    + intros i Hi. rewrite Read_lookup by assumption.
      rewrite lookup_take_lt by (destruct Hu; lia).
      rewrite buffered_lookup by (try assumption; lia). reflexivity.
  - assert (HW : RingWrite (snd (Read size s)) = RingWrite s) by reflexivity.
    assert (HG : Ring (snd (Read size s)) = Ring s) by reflexivity.
    assert (HS : RingSize (snd (Read size s)) = RingSize s) by reflexivity.
    apply (list_eq_upto _ _ (RingWrite s - RingRead s - r_size (fst (Read size s)))).
    + rewrite buffered_length by assumption. rewrite Hr, HW. f_equal. lia.
    + rewrite length_drop, Hbl. destruct Hu. lia.
    + intros i Hi.
      rewrite buffered_lookup by (try assumption; rewrite Hr, HW; lia).
      rewrite lookup_drop.
      replace (Z.to_nat size + Z.to_nat i)%nat
        with (Z.to_nat (r_size (fst (Read size s)) + i)) by (destruct Hu; lia).
      rewrite buffered_lookup by (try assumption; lia).
      rewrite Hr, HG, HS.
      do 3 f_equal. lia.
Qed.

(** ** Appending, as seen on the stored bytes *)

Lemma rebase_cases s bytes :
  rebase s bytes = 0 \/ rebase s bytes = RingSize s.
Proof. unfold rebase. destruct (_ <? _); auto. Qed.

Lemma dropped_bounds s bytes :
  ring_ok s -> 0 <= bytes <= RingSize s ->
  0 <= dropped s bytes <= RingWrite s - RingRead s
  /\ RingWrite s + bytes <= RingRead s + dropped s bytes + RingSize s.
Proof. intros [] Hb. unfold dropped. lia. Qed.

(** The packet joins the buffered bytes at the young end; what no longer
    fits is taken away at the old end. *)
Lemma buffered_CapturePacket s p :
  ring_ok s -> packet_ok s p ->
  buffered (CapturePacket p s)
  = drop (Z.to_nat (dropped s (packet_bytes s p))) (buffered s ++ payload s p).
Proof.
  intros Hok Hpk.
  pose proof (ring_ok_CapturePacket s p Hok) as Hok'.
  pose proof (packet_bytes_range s p) as Hu. unfold is_uint in Hu.
  pose proof (payload_length s p Hpk) as Hpl.
  pose proof (buffered_length s Hok) as Hbl.
  pose proof (Ring_CapturePacket s p Hok) as HRing.
  set (bytes := packet_bytes s p) in *.
  assert (Hb : 0 <= bytes <= RingSize s) by (destruct Hpk; lia).
  destruct (locked_update_exact s bytes Hok Hb) as (HR & HW & _ & _ & _).
  destruct (dropped_bounds s bytes Hok Hb) as [Hd Hroom].
  set (d := dropped s bytes) in *. set (sh := rebase s bytes) in *.
  assert (HR' : RingRead (CapturePacket p s) = RingRead s + d - sh) by exact HR.
  assert (HW' : RingWrite (CapturePacket p s) = RingWrite s + bytes - sh) by exact HW.
  assert (HS' : RingSize (CapturePacket p s) = RingSize s) by reflexivity.
  assert (Hcap : 0 < RingSize s < 2 ^ 32) by (destruct Hok; lia).
  assert (Hpos : 0 <= RingWrite s mod RingSize s < RingSize s)
    by (apply Z.mod_pos_bound; lia).
  assert (Hlen : length (Ring s) = Z.to_nat (RingSize s)) by (destruct Hok; assumption).
  apply (list_eq_upto _ _ (RingWrite s + bytes - RingRead s - d)).
  - rewrite buffered_length by assumption. rewrite HR', HW'. f_equal. lia.
  - rewrite length_drop, length_app, Hbl, Hpl. lia.
  - intros i Hi.
    rewrite buffered_lookup by (try assumption; rewrite HR', HW'; lia).
    rewrite HR', HS', HRing, lookup_drop.
    assert (Hcell : (RingRead s + d - sh + i) mod RingSize s
                    = (RingRead s + d + i) mod RingSize s).
    { destruct (rebase_cases s bytes) as [E|E]; fold sh in E; rewrite E.
      - f_equal. lia.
      - replace (RingRead s + d - RingSize s + i)
          with (RingRead s + d + i - RingSize s) by lia.
        apply mod_shift. lia. }
    rewrite Hcell.
    destruct (Z.lt_ge_cases (RingRead s + d + i) (RingWrite s)) as [Hold|Hnew].
    + rewrite store_packet_miss; try assumption; try lia.
      * rewrite lookup_app_l by lia.
        replace (Z.to_nat d + Z.to_nat i)%nat with (Z.to_nat (d + i)) by lia.
        rewrite buffered_lookup by (try assumption; lia).
        do 3 f_equal. lia.
      * apply Z.mod_pos_bound. lia.
      * intros i' Hi'. rewrite Zplus_mod_idemp_l.
        apply not_eq_sym, mod_apart; lia.
    + replace ((RingRead s + d + i) mod RingSize s)
        with ((RingWrite s mod RingSize s + (RingRead s + d + i - RingWrite s))
              mod RingSize s)
        by (rewrite Zplus_mod_idemp_l; f_equal; lia).
      rewrite store_packet_hit; try assumption; try lia.
      rewrite lookup_app_r by lia.
      f_equal. lia.
Qed.

(** The distance between the cursors after the locked section: the ring
    is exactly full when the packet did not fit, and has grown by the
    packet otherwise. *)
Lemma locked_update_fill s bytes :
  ring_ok s -> is_uint bytes ->
  let c := locked_update s bytes in
  let avail := RingSize s - (RingWrite s - RingRead s) in
  c_write c - c_read c = if avail <? bytes then RingSize s
                         else RingWrite s - RingRead s + bytes.
Proof.
  intros [Hsz _ _ Hr Ho Hw Hf] Hb. unfold is_uint in Hb. unfold locked_update.
  set (cap := RingSize s) in *. set (R := RingRead s) in *.
  set (W := RingWrite s) in *. cbv zeta.
  assert (Hav : usub cap (usub W R) = cap - (W - R)) by machine.
  rewrite Hav.
  destruct (Z.ltb_spec (cap - (W - R)) bytes) as [Hov|Hov].
  - destruct (Z.ltb_spec cap (uadd R (usub bytes (cap - (W - R))))) as [Hre|Hre];
      cbn [c_read c_write]; machine.
  - destruct (Z.ltb_spec cap R) as [Hre|Hre]; cbn [c_read c_write]; machine.
Qed.

(** ** Sessions: objects reached from the constructor *)

Lemma touched_range off n :
  Forall (fun i => off <= i < off + n) (touched off n).
Proof.
  unfold touched. apply Forall_fmap, Forall_forall.
  intros i Hi%elem_of_seq. cbn. lia.
Qed.

Lemma touched_in_ring s off n :
  0 <= off -> off + n <= RingSize s -> Forall (in_ring s) (touched off n).
Proof.
  intros Ho Hn. eapply Forall_impl; [apply touched_range|].
  intros i Hi. unfold in_ring. cbn in Hi. lia.
Qed.

Lemma store_touched_in_ring s pos bytes :
  0 < RingSize s < 2 ^ 32 -> 0 <= pos < RingSize s ->
  0 <= bytes <= RingSize s ->
  Forall (in_ring s) (store_touched (RingSize s) pos bytes).
Proof.
  intros Hsz Hp Hb. unfold store_touched. rewrite Min_spec.
  assert (H1 : usub (RingSize s) pos = RingSize s - pos) by machine.
  rewrite H1.
  assert (H2 : usub bytes (Z.min bytes (RingSize s - pos))
               = bytes - Z.min bytes (RingSize s - pos)) by machine.
  rewrite H2. apply Forall_app. split; apply touched_in_ring; lia.
Qed.

Section Session.

Variables (hrActivate hrGetMixFormat : Z) (fmt : WAVEFORMATEXTENSIBLE).
Variables (fresh : nat -> uint8) (s0 : AudioCapture).
Hypothesis Hstart :
  AudioCapture_WASAPI hrActivate hrGetMixFormat fmt fresh = Started s0.
Hypothesis Hsize : 0 < RingSize s0 < 2 ^ 31.

Lemma session_ok cs : Forall call_ok cs -> ring_ok (run cs s0).
Proof using Hstart Hsize.
  intros Hcs. apply ring_ok_run; [|assumption].
  now destruct (ring_ok_constructor _ _ _ _ _ Hstart Hsize).
Qed.

(** C1. Along every trace of calls from a freshly constructed object
    (appends interleaved at will with Read, JumpToTime and Flush), the
    cursors after each append satisfy
    RingRead <= RingWrite <= RingRead + RingSize; when the packet did not
    fit into the free room, the distance is exactly RingSize, the read
    cursor having been moved forward. *)
Theorem C1_cursor_distance cs p :
  Forall call_ok cs ->
  let before := run cs s0 in
  let after := CapturePacket p before in
  0 <= RingWrite after - RingRead after <= RingSize after
  /\ RingRead after <= RingWrite after <= RingRead after + RingSize after
  /\ (RingSize before - (RingWrite before - RingRead before) < packet_bytes before p ->
      RingWrite after - RingRead after = RingSize after).
Proof using Hstart Hsize.
  intros Hcs before after.
  pose proof (session_ok cs Hcs) as Hok. fold before in Hok.
  pose proof (ring_ok_CapturePacket before p Hok) as [_ _ _ Hr Ho Hw Hf].
  fold after in Hr, Ho, Hw, Hf.
  repeat split; try lia.
  intros Hov.
  pose proof (locked_update_fill before (packet_bytes before p) Hok
                (packet_bytes_range before p)) as Hfill.
  cbv zeta in Hfill.
  destruct (Z.ltb_spec (RingSize before - (RingWrite before - RingRead before))
              (packet_bytes before p)); [exact Hfill|lia].
Qed.

(** C2, for packets no longer than the ring.  In every object reached
    from the constructor, a
    packet of at most RingSize bytes is stored at indices inside
    [0, RingSize), and a Read of any size fetches from indices inside
    [0, RingSize). *)
Theorem C2_accesses_in_bounds cs :
  Forall call_ok cs ->
  let s := run cs s0 in
  (forall p, packet_bytes s p <= RingSize s ->
     Forall (in_ring s) (CapturePacket_touched p s))
  /\ (forall size, is_uint size -> Forall (in_ring s) (Read_touched size s)).
Proof using Hstart Hsize.
  intros Hcs s. pose proof (session_ok cs Hcs) as Hok. fold s in Hok.
  assert (Hsz : 0 < RingSize s < 2 ^ 32) by (destruct Hok; lia).
  split.
  - intros p Hfit. unfold CapturePacket_touched. rewrite locked_update_pos.
    apply store_touched_in_ring; [assumption| |].
    + apply Z.mod_pos_bound. lia.
    + pose proof (packet_bytes_range s p) as Hu. unfold is_uint in Hu. lia.
  - intros size Hu. unfold Read_touched.
    apply store_touched_in_ring; [assumption|now apply ring_ok_pos|].
    rewrite Min_spec. destruct Hok, Hu. machine.
Qed.

End Session.

(** ** Overflow loses the oldest bytes *)

Lemma keep_last_app n a b :
  0 <= n -> keep_last n (keep_last n a ++ b) = keep_last n (a ++ b).
Proof.
  intros Hn. unfold keep_last.
  destruct (decide (length a <= Z.to_nat n)%nat) as [Hle|Hgt].
  - replace (length a - Z.to_nat n)%nat with 0%nat by lia. reflexivity.
  - rewrite length_app, length_drop.
    rewrite <- (drop_app_le a b (length a - Z.to_nat n)) by lia.
    rewrite drop_drop, length_app. f_equal. lia.
Qed.

Lemma keep_last_covered n a b :
  (Z.to_nat n <= length b)%nat -> keep_last n (a ++ b) = keep_last n b.
Proof.
  intros Hb. unfold keep_last. rewrite length_app.
  replace (length a + length b - Z.to_nat n)%nat
    with (length a + (length b - Z.to_nat n))%nat by lia.
  apply drop_app_add.
Qed.

Lemma buffered_CapturePacket_keep s p :
  ring_ok s -> packet_ok s p ->
  buffered (CapturePacket p s)
  = keep_last (RingSize s) (buffered s ++ payload s p).
Proof.
  intros Hok Hpk. rewrite buffered_CapturePacket by assumption.
  unfold keep_last. f_equal.
  rewrite length_app, buffered_length, payload_length by assumption.
  pose proof (packet_bytes_range s p) as Hu. unfold is_uint in Hu.
  destruct Hok. unfold dropped. lia.
Qed.

Lemma packet_ok_CapturePacket s q p :
  packet_ok s p -> packet_ok (CapturePacket q s) p.
Proof. intros [Hf Hd]. split; assumption. Qed.

Lemma payload_CapturePacket s q p :
  payload (CapturePacket q s) p = payload s p.
Proof. reflexivity. Qed.

Lemma CaptureThreadFunc_cons p ps s :
  CaptureThreadFunc (p :: ps) s = CaptureThreadFunc ps (CapturePacket p s).
Proof. reflexivity. Qed.

Lemma buffered_CaptureThreadFunc ps : forall s,
  ring_ok s -> Forall (packet_ok s) ps ->
  ring_ok (CaptureThreadFunc ps s)
  /\ RingSize (CaptureThreadFunc ps s) = RingSize s
  /\ buffered (CaptureThreadFunc ps s)
     = keep_last (RingSize s) (buffered s ++ stream s ps).
Proof.
  induction ps as [|p ps IH]; intros s Hok Hps.
  - cbn [CaptureThreadFunc foldl]. unfold stream. cbn [fmap list_fmap concat].
    rewrite app_nil_r. split; [assumption|]. split; [reflexivity|].
    unfold keep_last. rewrite buffered_length by assumption.
    destruct Hok. replace (_ - _)%nat with 0%nat by lia. reflexivity.
  - inversion Hps as [|? ? Hp Hrest]; subst.
    destruct (IH (CapturePacket p s)) as (Hok' & Hsz' & Hbuf').
    + now apply ring_ok_CapturePacket.
    + eapply Forall_impl; [exact Hrest|]. intros q. apply packet_ok_CapturePacket.
    + rewrite CaptureThreadFunc_cons.
      split; [assumption|]. split; [assumption|].
      rewrite Hbuf'. cbn [CapturePacket RingSize].
      rewrite buffered_CapturePacket_keep by assumption.
      unfold stream. cbn [fmap list_fmap concat].
      rewrite keep_last_app by (destruct Hok; lia).
      now rewrite <- app_assoc.
Qed.

(** C3, for packets no longer than the ring (a longer packet overwrites
    its own first bytes).  A packet longer than the free room moves the
    read cursor forward by exactly the excess (the three offsets being
    rebased together by 0 or RingSize), leaves the ring full, and removes
    exactly the oldest excess bytes; after a run of packets that brings at
    least RingSize bytes, a Read of RingSize bytes or more returns exactly
    the RingSize bytes that arrived last. *)
Theorem C3_overflow_drops_oldest s p ps size :
  ring_ok s -> packet_ok s p -> Forall (packet_ok s) ps ->
  RingSize s <= size < 2 ^ 32 ->
  let bytes := packet_bytes s p in
  let avail := RingSize s - (RingWrite s - RingRead s) in
  let s1 := CapturePacket p s in
  let sn := CaptureThreadFunc ps s in
  (avail < bytes ->
     (exists shift, (shift = 0 \/ shift = RingSize s)
        /\ RingRead s1 = RingRead s + (bytes - avail) - shift
        /\ RingWrite s1 = RingWrite s + bytes - shift)
     /\ RingWrite s1 - RingRead s1 = RingSize s
     /\ buffered s1 = drop (Z.to_nat (bytes - avail)) (buffered s ++ payload s p)
     /\ r_dest (fst (Read size s1))
        = keep_last (RingSize s) (buffered s ++ payload s p))
  /\ (RingSize s <= Z.of_nat (length (stream s ps)) ->
      r_dest (fst (Read size sn)) = keep_last (RingSize s) (stream s ps)).
Proof.
  intros Hok Hpk Hps Hsize bytes avail s1 sn.
  assert (Hu : is_uint size) by (destruct Hok; unfold is_uint; lia).
  assert (Hb : 0 <= bytes <= RingSize s).
  { pose proof (packet_bytes_range s p) as Hr. unfold is_uint in Hr.
    destruct Hpk. subst bytes. lia. }
  split.
  - intros Hov.
    destruct (locked_update_exact s bytes Hok Hb) as (HR & HW & _ & _ & _).
    assert (Hd : dropped s bytes = bytes - avail)
      by (unfold dropped; subst avail; lia).
    rewrite Hd in HR.
    pose proof (ring_ok_CapturePacket s p Hok) as Hok1. fold s1 in Hok1.
    pose proof (buffered_CapturePacket s p Hok Hpk) as Hbuf.
    fold bytes s1 in Hbuf. rewrite Hd in Hbuf.
    assert (Hfull : RingWrite s1 - RingRead s1 = RingSize s).
    { change (RingRead s1) with (c_read (locked_update s bytes)).
      change (RingWrite s1) with (c_write (locked_update s bytes)).
      rewrite HR, HW. subst avail. lia. }
    repeat split.
    + exists (rebase s bytes). split; [apply rebase_cases|]. split; assumption.
    + exact Hfull.
    + exact Hbuf.
    + destruct (Read_buffered s1 size Hok1 Hu) as [-> _].
      rewrite take_ge
        by (rewrite buffered_length by assumption; rewrite Hfull; lia).
      now apply buffered_CapturePacket_keep.
  - intros Hlong.
    destruct (buffered_CaptureThreadFunc ps s Hok Hps) as (Hokn & Hszn & Hbufn).
    fold sn in Hokn, Hszn, Hbufn.
    destruct (Read_buffered sn size Hokn Hu) as [-> _].
    rewrite take_ge.
    + rewrite Hbufn. apply keep_last_covered. lia.
    + rewrite buffered_length by assumption. destruct Hokn. lia.
Qed.

(** ** Read *)

(** C4. On a well-formed object, Read with any size returns
    min (size, RingWrite - RingRead) bytes, never more than are buffered;
    byte i of the result is the ring cell i places after
    RingRead mod RingSize, counted around the end of the storage; the read
    cursor moves forward by exactly the number of bytes returned. *)
Theorem C4_Read_amount s size :
  ring_ok s -> is_uint size ->
  let r := fst (Read size s) in
  let s' := snd (Read size s) in
  r_size r = Z.min size (RingWrite s - RingRead s)
  /\ r_size r <= RingWrite s - RingRead s
  /\ length (r_dest r) = Z.to_nat (r_size r)
  /\ (forall i, 0 <= i < r_size r ->
        r_dest r !! Z.to_nat i
        = Ring s !! Z.to_nat ((RingRead s mod RingSize s + i) mod RingSize s))
  /\ RingRead s' = RingRead s + r_size r.
Proof.
  intros Hok Hu r s'. destruct (Read_size s size Hok Hu) as [Hs Hr].
  fold r in Hs, Hr. fold s' in Hr.
  split; [exact Hs|]. split; [lia|].
  split; [now apply Read_length|]. split; [|exact Hr].
  intros i Hi. rewrite Zplus_mod_idemp_l. now apply Read_lookup.
Qed.

(** ** The consumer side leaves the producer's fields alone *)

Lemma set_RingRead_frame s r : same_producer_fields s (set_RingRead s r).
Proof. split; reflexivity. Qed.

Lemma step_frame s c : is_consumer c -> same_producer_fields s (step s c).
Proof.
  destruct c; cbn [is_consumer step]; intros Hc;
    [contradiction| | |]; apply set_RingRead_frame.
Qed.

Lemma run_cons c cs s : run (c :: cs) s = run cs (step s c).
Proof. reflexivity. Qed.

Lemma run_frame cs : forall s,
  Forall is_consumer cs -> same_producer_fields s (run cs s).
Proof.
  induction cs as [|c cs IH]; intros s Hcs.
  - split; reflexivity.
  - inversion Hcs as [|? ? Hc Hrest]; subst.
    destruct (step_frame s c Hc), (IH (step s c) Hrest).
    split; rewrite run_cons; congruence.
Qed.

Lemma step_RingRead s c :
  ring_ok s -> call_ok c -> is_consumer c -> RingRead s <= RingRead (step s c).
Proof.
  intros Hok Hc Hcons. destruct c; cbn [is_consumer call_ok step] in *.
  - contradiction.
  - destruct (Read_size s size Hok Hc) as [Hs ->]. destruct Hok, Hc. lia.
  - apply (jump_by_between s _ Hok).
  - cbn. destruct Hok. lia.
Qed.

(** C10. Read, JumpToTime and Flush leave RingWrite, the anchor
    (RingTimePos and RingTimeValue) and the stored bytes as they are and
    never move RingRead backwards; a call that changes one of the former
    is an append. *)
Theorem C10_consumer_frame s c :
  ring_ok s -> call_ok c ->
  let s' := step s c in
  (is_consumer c ->
     RingWrite s' = RingWrite s
     /\ RingTimePos s' = RingTimePos s
     /\ RingTimeValue s' = RingTimeValue s
     /\ Ring s' = Ring s
     /\ RingRead s <= RingRead s')
  /\ (RingWrite s' <> RingWrite s \/ RingTimePos s' <> RingTimePos s
      \/ RingTimeValue s' <> RingTimeValue s \/ Ring s' <> Ring s ->
      exists p, c = CAppend p).
Proof.
  intros Hok Hc s'.
  assert (Hframe : is_consumer c ->
            RingWrite s' = RingWrite s /\ RingTimePos s' = RingTimePos s
            /\ RingTimeValue s' = RingTimeValue s /\ Ring s' = Ring s
            /\ RingRead s <= RingRead s').
  { intros Hcons. destruct (step_frame s c Hcons).
    pose proof (step_RingRead s c Hok Hc Hcons). auto. }
  split; [exact Hframe|].
  intros Hchg. destruct c as [p| | |]; [now exists p| | |];
    destruct (Hframe I) as (H1 & H2 & H3 & H4 & _);
    destruct Hchg as [?|[?|[?|?]]]; contradiction.
Qed.

(** ** Timestamps *)

Lemma Read_time s size : r_time (fst (Read size s)) = time_at s (RingRead s).
Proof. reflexivity. Qed.

(** C5. The timestamp of a Read is
    anchor time + (RingRead - anchor offset) / bytes per second, with
    RingRead as it is when the call starts, bytes per second the product
    BytesPerSample * nSamplesPerSec (as a 32-bit product, the plain
    product when that is below 2^32), and the anchor the pair left by the
    latest packet: its time stamp, and the offset of its first byte (the
    write cursor of that moment, moved down with the cursors when they are
    rebased). *)
Theorem C5_Read_timestamp s p cs size :
  Forall is_consumer cs ->
  let s1 := CapturePacket p s in
  let s2 := run cs s1 in
  r_time (fst (Read size s2))
  = (RingTimeValue s1
     + (inject_Z (RingRead s2) - inject_Z (RingTimePos s1))
       / inject_Z (umul (BytesPerSample s) (nSamplesPerSec (Format s))))%Q
  /\ RingTimeValue s1 = packet_time p
  /\ (RingTimePos s1 = RingWrite s
      \/ RingTimePos s1 = usub (RingWrite s) (RingSize s))
  /\ (ring_ok s -> packet_bytes s p <= RingSize s ->
      RingTimePos s1 = RingWrite s1 - packet_bytes s p)
  /\ (0 <= BytesPerSample s * nSamplesPerSec (Format s) < 2 ^ 32 ->
      umul (BytesPerSample s) (nSamplesPerSec (Format s))
      = BytesPerSample s * nSamplesPerSec (Format s)).
Proof.
  intros Hcs s1 s2.
  destruct (run_frame cs s1 Hcs) as [_ Htp Htv _ _ Hrate]. fold s2 in Htp, Htv, Hrate.
  split; [|split; [reflexivity|split; [|split; [|apply wrap32_small]]]].
  - rewrite Read_time. unfold time_at. rewrite Htp, Htv, Hrate. reflexivity.
  - cbn [s1 CapturePacket RingTimePos]. unfold locked_update. cbv zeta.
    destruct (RingSize s <? _); cbn [c_timepos]; auto.
  - intros Hok Hfit.
    pose proof (packet_bytes_range s p) as Hu. unfold is_uint in Hu.
    destruct (locked_update_exact s (packet_bytes s p) Hok) as (_ & HW & HT & _);
      [lia|].
    cbn [s1 CapturePacket RingTimePos RingWrite]. rewrite HW, HT. lia.
Qed.

(** *** Successive reads *)







(** ** Silent packets *)



Lemma to_int_of_int x : is_int x -> to_int x = x.
Proof.
  unfold is_int, to_int. intros Hx.
  destruct (Z.ltb_spec (wrap32 x) (2 ^ 31)); machine.
Qed.

(** Four bytes for each channel of 32-bit samples. *)
Lemma float32_BytesPerSample n :
  0 <= n < 2 ^ 16 -> wrap32 (Z.quot (to_int (n * 32)) 8) = 4 * n.
Proof.
  intros Hn. rewrite to_int_of_int by (unfold is_int; lia).
  replace (n * 32) with (4 * n * 8) by lia.
  rewrite Z.quot_mul by lia. apply wrap32_small. lia.
Qed.

Lemma CHECK_succeeded {A} hr (k : outcome A) : 0 <= hr -> CHECK hr k = k.
Proof.
  unfold CHECK, FAILED. intros H.
  destruct (Z.ltb_spec hr 0); [lia|reflexivity].
Qed.

Lemma float32_extensible fmt :
  is_float32 fmt = true -> wFormatTag fmt = WAVE_FORMAT_EXTENSIBLE ->
  float_encoded fmt = true /\ wBitsPerSample fmt = 32.
Proof.
  unfold is_float32, float_encoded. intros H Htag. rewrite Htag in *.
  apply andb_prop in H. destruct H as [Hbits H].
  apply Z.eqb_eq in Hbits. split; [|exact Hbits].
  apply orb_prop in H. destruct H as [H|H]; [discriminate H|exact H].
Qed.

Lemma construct_rejects pl dev :
  float_encoded (mix_format pl) = false -> construct pl dev = Fatal.
Proof.
  intros Hfmt. unfold construct, CHECK.
  destruct (FAILED (hr_CoInitializeEx pl)); [reflexivity|].
  destruct (if is_loopback dev then keep_alive pl else Started false);
    [reflexivity|].
  unfold and_then at 1. unfold AudioCapture_WASAPI, CHECK, ASSERT.
  rewrite Hfmt.
  destruct (FAILED (hr_Activate pl)), (FAILED (hr_GetMixFormat pl)); reflexivity.
Qed.

Lemma construct_checks pl dev :
  Exists (fun hr => hr < 0) (constructor_checks pl dev) ->
  construct pl dev = Fatal.
Proof.
  unfold construct, constructor_checks, keep_alive, AudioCapture_WASAPI,
    CHECK, FAILED.
  intros H.
  destruct (Z.ltb_spec (hr_CoInitializeEx pl) 0); [reflexivity|].
  destruct (is_loopback dev).
  - destruct (Z.ltb_spec (hr_sink_Activate pl) 0); [reflexivity|].
    destruct (Z.ltb_spec (hr_sink_GetMixFormat pl) 0); [reflexivity|].
    destruct (Z.ltb_spec (hr_sink_Initialize pl) 0); [reflexivity|].
    destruct (Z.ltb_spec (hr_sink_GetBufferSize pl) 0); [reflexivity|].
    destruct (Z.ltb_spec (hr_sink_GetService pl) 0); [reflexivity|].
    destruct (Z.ltb_spec (hr_sink_GetBuffer pl) 0); [reflexivity|].
    destruct (Z.ltb_spec (hr_sink_Start pl) 0); [reflexivity|].
    destruct (Z.ltb_spec (hr_Activate pl) 0); [reflexivity|].
    destruct (Z.ltb_spec (hr_GetMixFormat pl) 0); [reflexivity|].
    destruct (float_encoded (mix_format pl)); [|reflexivity].
    destruct (Z.ltb_spec (hr_Initialize pl) 0); [reflexivity|].
    destruct (Z.ltb_spec (hr_GetBufferSize pl) 0); [reflexivity|].
    destruct (Z.ltb_spec (hr_GetService pl) 0); [reflexivity|].
    destruct (Z.ltb_spec (hr_Start pl) 0); [reflexivity|].
    exfalso. rewrite !Exists_app, !Exists_cons, !Exists_nil in H.
    intuition lia.
  - destruct (Z.ltb_spec (hr_Activate pl) 0); [reflexivity|].
    destruct (Z.ltb_spec (hr_GetMixFormat pl) 0); [reflexivity|].
    destruct (float_encoded (mix_format pl)); [|reflexivity].
    destruct (Z.ltb_spec (hr_Initialize pl) 0); [reflexivity|].
    destruct (Z.ltb_spec (hr_GetBufferSize pl) 0); [reflexivity|].
    destruct (Z.ltb_spec (hr_GetService pl) 0); [reflexivity|].
    destruct (Z.ltb_spec (hr_Start pl) 0); [reflexivity|].
    exfalso. rewrite !Exists_app, !Exists_cons, !Exists_nil in H.
    intuition lia.
Qed.

Lemma construct_proceeds pl dev :
  float_encoded (mix_format pl) = true ->
  Forall (fun hr => 0 <= hr) (constructor_checks pl dev) ->
  exists object,
    AudioCapture_WASAPI (hr_Activate pl) (hr_GetMixFormat pl)
      (mix_format pl) (new_array pl) = Started object
    /\ construct pl dev
       = Started {| capture := object;
                    PlaybackClient := is_loopback dev;
                    session_BufferSize := client_BufferSize pl;
                    streamFlags := if is_loopback dev
                                   then AUDCLNT_STREAMFLAGS_LOOPBACK else 0 |}.
Proof.
  intros Hfmt H. unfold construct, constructor_checks, keep_alive in *.
  unfold AudioCapture_WASAPI, ASSERT, CHECK, FAILED. rewrite Hfmt.
  destruct (is_loopback dev).
  all: rewrite !Forall_app, !Forall_cons in H.
  all: repeat match goal with
       | Hc : _ /\ _ |- _ => destruct Hc
       end.
  all: repeat match goal with
       | |- context [?h <? 0] => destruct (Z.ltb_spec h 0); [lia|]
       end.
  all: eexists; split; reflexivity.
Qed.

(** ** Negotiation of the format *)

(** C9, with the format test as the constructor makes it.  The
    constructor ends in Fatal when the mix format does not carry the tag
    WAVE_FORMAT_EXTENSIBLE with the IEEE-float sub-format, and when one of
    the platform calls it checks fails.  For a 32-bit float format under
    that tag, all calls succeeding, the constructor delivers the object:
    the format is kept, BytesPerSample is four bytes for each channel,
    the ring holds one second, and the playback client exists exactly for
    a render device. *)
Theorem C9_negotiation pl dev :
  (float_encoded (mix_format pl) = false -> construct pl dev = Fatal)
  /\ (Exists (fun hr => hr < 0) (constructor_checks pl dev) ->
      construct pl dev = Fatal)
  /\ (is_float32 (mix_format pl) = true ->
      wFormatTag (mix_format pl) = WAVE_FORMAT_EXTENSIBLE ->
      0 <= nChannels (mix_format pl) < 2 ^ 16 ->
      Forall (fun hr => 0 <= hr) (constructor_checks pl dev) ->
      exists ses, construct pl dev = Started ses
        /\ Format (capture ses) = mix_format pl
        /\ BytesPerSample (capture ses) = 4 * nChannels (mix_format pl)
        /\ RingSize (capture ses)
           = umul (nSamplesPerSec (mix_format pl)) (BytesPerSample (capture ses))
        /\ RingRead (capture ses) = 0
        /\ RingWrite (capture ses) = 0
        /\ PlaybackClient ses = is_loopback dev).
Proof.
  split; [apply construct_rejects|]. split; [apply construct_checks|].
  intros H32 Htag Hch Hall.
  destruct (float32_extensible _ H32 Htag) as [Hfmt Hbits].
  destruct (construct_proceeds pl dev Hfmt Hall) as (object & Hobj & ->).
  eexists. split; [reflexivity|]. cbn [capture PlaybackClient].
  revert Hobj. unfold AudioCapture_WASAPI, CHECK, ASSERT.
  destruct (FAILED (hr_Activate pl)); [discriminate|].
  destruct (FAILED (hr_GetMixFormat pl)); [discriminate|].
  rewrite Hfmt. intros [= <-].
  cbn [Format BytesPerSample RingSize RingRead RingWrite].
  rewrite Hbits, float32_BytesPerSample by assumption.
  repeat split.
Qed.

(** ** Seeking *)


Lemma to_int_wrap32 x : to_int (wrap32 x) = to_int x.
Proof. unfold to_int, wrap32. now rewrite Zmod_mod. Qed.

(** The seek for a sample count [d], whatever produced it: as long as
    the target offset fits an [int] and the cursors are below 2^31, the
    read cursor goes to the clamp of the target offset. *)
Lemma jump_by_in_range d s :
  ring_ok s -> RingWrite s < 2 ^ 31 ->
  is_int (RingTimePos s + d * BytesPerSample s) ->
  RingRead (jump_by d s)
  = Clamp (RingTimePos s + d * BytesPerSample s) (RingRead s) (RingWrite s).
Proof.
  intros Hok HW Ht. cbn [jump_by set_RingRead RingRead].
  assert (Hdest : to_int (uadd (RingTimePos s) (umul d (BytesPerSample s)))
                  = RingTimePos s + d * BytesPerSample s).
  { unfold uadd, umul. rewrite to_int_wrap32.
    assert (Hw : wrap32 (RingTimePos s + wrap32 (d * BytesPerSample s))
                 = wrap32 (RingTimePos s + d * BytesPerSample s)).
    { unfold wrap32. apply Zplus_mod_idemp_r. }
    rewrite <- to_int_wrap32, Hw, to_int_wrap32. now apply to_int_of_int. }
  rewrite Hdest, !to_int_small by (destruct Hok; lia).
  apply wrap32_small.
  destruct (Clamp_between (RingTimePos s + d * BytesPerSample s)
              (RingRead s) (RingWrite s)); destruct Hok; lia.
Qed.

(** With the sample count taken from the exact product. *)
Lemma JumpToTime_in_range time s :
  ring_ok s -> RingWrite s < 2 ^ 31 ->
  is_int (round ((time - RingTimeValue s) * inject_Z (nSamplesPerSec (Format s)))) ->
  is_int (target_offset time s) ->
  RingRead (JumpToTime time s)
  = Clamp (target_offset time s) (RingRead s) (RingWrite s).
Proof.
  intros Hok HW Hd Ht. unfold JumpToTime, delta_samples, double_to_int.
  unfold target_offset in *. set (d := round _) in *.
  assert (Hin : (- 2 ^ 31 <=? d) && (d <? 2 ^ 31) = true).
  { unfold is_int in Hd. apply andb_true_intro. split; [apply Z.leb_le|apply Z.ltb_lt]; lia. }
  rewrite Hin. now apply jump_by_in_range.
Qed.

(** ** The scenarios of the specification *)

Import Scenario.
Import Cases.

Lemma object10_started : AudioCapture_WASAPI 0 0 fmt10 stale = Started object10.
Proof. reflexivity. Qed.

Lemma object10_ok : ring_ok object10.
Proof. split; cbn; try reflexivity; lia. Qed.

(** Scenario 1: four bytes at time 0, then Read (10). *)
Example scenario_1 :
  let r := fst (Read 10 (CapturePacket first4 object10)) in
  r_size r = 4 /\ r_dest r = [x01; x02; x03; x04] /\ (r_time r == 0)%Q.
Proof. repeat split. Qed.

(** Scenario 2: eight more bytes; Read (10) returns the last ten. *)
Example scenario_2 :
  r_dest (fst (Read 10 (CaptureThreadFunc [first4; next8] object10)))
  = [x03; x04; x05; x06; x07; x08; x09; x0a; x0b; x0c].
Proof. vm_compute. reflexivity. Qed.

(** Scenario 3: a seek to a time before the oldest byte kept. *)
Example scenario_3 :
  r_dest (fst (Read 3
    (JumpToTime (-5) (CaptureThreadFunc [first4; next8] object10))))
  = [x03; x04; x05].
Proof. vm_compute. reflexivity. Qed.

(** Scenario 4: Flush, five bytes, Read (10). *)
Example scenario_4 :
  r_dest (fst (Read 10
    (run [CFlush; CAppend (sound [x21; x22; x23; x24; x25] 12000000)]
       (CaptureThreadFunc [first4; next8] object10))))
  = [x21; x22; x23; x24; x25].
Proof. vm_compute. reflexivity. Qed.

(** Scenario 5: a silent packet of length 6, with garbage behind its
    pointer. *)
Example scenario_5 :
  r_dest (fst (Read 10 (CapturePacket silent6 object10)))
  = [x00; x00; x00; x00; x00; x00].
Proof. vm_compute. reflexivity. Qed.

(** ** Instances at concrete sessions *)

Lemma C1_cursor_distance_witness :
  let after := CapturePacket next8
                 (run [CAppend first4; CRead 1; CJumpToTime 0; CFlush;
                       CAppend first4] object10) in
  RingRead after <= RingWrite after <= RingRead after + RingSize after.
Proof.
  refine (proj1 (proj2
    (C1_cursor_distance 0 0 fmt10 stale object10 object10_started _
       [CAppend first4; CRead 1; CJumpToTime 0; CFlush; CAppend first4]
       next8 _))).
  - evaluate.
  - repeat constructor; unfold is_uint; lia.
Defined.

(** A packet of 25 bytes on the ring of 10: the second piece of the copy
    starts at index 0 and runs to index 14. *)
Lemma C2_long_packet_out_of_bounds :
  AudioCapture_WASAPI 0 0 fmt10 stale = Started object10
  /\ packet_bytes object10 long25 = 25
  /\ ~ Forall (in_ring object10) (CapturePacket_touched long25 object10).
Proof.
  split; [reflexivity|]. split; [reflexivity|].
  intros H. rewrite Forall_forall in H.
  assert (Hin : 10 ∈ CapturePacket_touched long25 object10).
  { apply list_elem_of_lookup. exists 20%nat. reflexivity. }
  specialize (H 10 Hin). unfold in_ring in H.
  change (RingSize object10) with 10 in H. lia.
Qed.

Lemma C2_accesses_in_bounds_witness :
  Forall (in_ring (run [CAppend first4] object10))
    (CapturePacket_touched next8 (run [CAppend first4] object10))
  /\ Forall (in_ring (run [CAppend first4] object10))
       (Read_touched 10 (run [CAppend first4] object10)).
Proof.
  pose proof (C2_accesses_in_bounds 0 0 fmt10 stale object10 object10_started
                ltac:(evaluate) [CAppend first4]
                ltac:(repeat constructor)) as [Hw Hr].
  split.
  - apply Hw. vm_compute. discriminate.
  - apply Hr. unfold is_uint. lia.
Defined.

Lemma first4_ok : packet_ok object10 first4.
Proof. split; [vm_compute; discriminate|]. intros _. vm_compute. lia. Qed.

Lemma next8_ok : packet_ok object10 next8.
Proof. split; [vm_compute; discriminate|]. intros _. vm_compute. lia. Qed.

Lemma C3_overflow_drops_oldest_witness :
  r_dest (fst (Read 10 (CaptureThreadFunc [first4; next8] object10)))
  = keep_last 10 (stream object10 [first4; next8]).
Proof.
  refine (proj2
    (C3_overflow_drops_oldest object10 first4 [first4; next8] 10
       object10_ok first4_ok _ _) _).
  - repeat constructor; [apply first4_ok|apply next8_ok].
  - evaluate.
  - evaluate.
Defined.

Lemma C4_Read_amount_witness :
  r_size (fst (Read 3 (CapturePacket first4 object10))) = Z.min 3 (4 - 0).
Proof.
  refine (proj1
    (C4_Read_amount (CapturePacket first4 object10) 3 _ _)).
  - apply ring_ok_CapturePacket, object10_ok.
  - unfold is_uint. lia.
Defined.

Lemma C5_Read_timestamp_witness :
  RingTimeValue (CapturePacket next8 object10) = packet_time next8.
Proof.
  refine (proj1 (proj2
    (C5_Read_timestamp object10 next8 [CRead 2; CFlush] 4 _))).
  repeat constructor.
Defined.

(** C6. JumpToTime at a target far from the anchor.  48 kHz stereo float:
    one packet stamped 0 leaves 3840 bytes between the cursors.  A seek to
    6000 s lies far after the newest byte, so the clamp of the target
    offset is the write cursor; the
    offset it asks for is 2304000000, which read as an [int] is negative,
    and JumpToTime leaves the read cursor at 0 where the write cursor,
    3840, is the nearest bound. *)
Theorem C6_far_seek :
  exists s0, AudioCapture_WASAPI 0 0 fmt48k stale = Started s0
    /\ let s := CapturePacket tick480 s0 in
       RingRead s = 0 /\ RingWrite s = 3840
       /\ (write_time s < 6000)%Q
       /\ target_offset 6000 s = 2304000000
       /\ Clamp (target_offset 6000 s) (RingRead s) (RingWrite s) = 3840
       /\ RingRead (JumpToTime 6000 s) = 0.
Proof.
  eexists. split; [reflexivity|]. repeat split; vm_compute; reflexivity.
Qed.



(** A 32-bit float format under the plain tag WAVE_FORMAT_IEEE_FLOAT, every
    platform call succeeding: the constructor ends in Fatal. *)
Lemma C9_plain_float_rejected :
  is_float32 fmt_plain32 = true
  /\ Forall (fun hr => 0 <= hr)
       (constructor_checks (studio fmt_plain32) loudspeaker)
  /\ construct (studio fmt_plain32) loudspeaker = Fatal.
Proof.
  split; [reflexivity|]. split; [|reflexivity].
  apply Forall_forall. intros hr Hin. apply list_elem_of_In in Hin.
  vm_compute in Hin. intuition (subst; lia).
Qed.

Lemma C9_negotiation_witness :
  exists ses, construct (studio fmt48k) loudspeaker = Started ses
    /\ Format (capture ses) = mix_format (studio fmt48k)
    /\ BytesPerSample (capture ses) = 4 * nChannels (mix_format (studio fmt48k))
    /\ RingSize (capture ses)
       = umul (nSamplesPerSec (mix_format (studio fmt48k)))
           (BytesPerSample (capture ses))
    /\ RingRead (capture ses) = 0
    /\ RingWrite (capture ses) = 0
    /\ PlaybackClient ses = is_loopback loudspeaker.
Proof.
  refine (proj2 (proj2 (C9_negotiation (studio fmt48k) loudspeaker)) _ _ _ _).
  - reflexivity.
  - reflexivity.
  - vm_compute. split; [discriminate|reflexivity].
  - apply Forall_forall. intros hr Hin. apply list_elem_of_In in Hin.
    vm_compute in Hin. intuition (subst; lia).
Defined.

(** The format test looks at the tag and the sub-format only.  An
    extensible format with the IEEE-float sub-format and 64-bit samples
    passes it: the object has sixteen bytes for a stereo sample, and
    GetInfo announces F32. *)
Lemma wide_float_passes :
  is_float32 fmt_f64 = false
  /\ exists ses, construct (studio fmt_f64) loudspeaker = Started ses
       /\ BytesPerSample (capture ses) = 16
       /\ info_Format (GetInfo (capture ses)) = F32.
Proof.
  split; [reflexivity|]. eexists. split; [reflexivity|].
  split; reflexivity.
Qed.

(** A packet of 25 bytes on the ring of 10: the read cursor moves by the
    excess, and the second segment of the copy overwrites what the first
    has stored, so that Read returns bytes 16 to 20 followed by bytes 11
    to 15 where the ten bytes that arrived last are bytes 16 to 25. *)
Lemma C3_long_packet_scrambles :
  room object10 < packet_bytes object10 count25
  /\ r_dest (fst (Read 10 (CapturePacket count25 object10)))
     = [x10; x11; x12; x13; x14; x0b; x0c; x0d; x0e; x0f]
  /\ keep_last (RingSize object10) (buffered object10 ++ payload object10 count25)
     = [x10; x11; x12; x13; x14; x15; x16; x17; x18; x19]
  /\ r_dest (fst (Read 10 (CaptureThreadFunc [count25] object10)))
     <> keep_last (RingSize object10) (stream object10 [count25]).
Proof.
  split; [vm_compute; reflexivity|]. split; [vm_compute; reflexivity|].
  split; [vm_compute; reflexivity|]. vm_compute. discriminate.
Qed.



Lemma C10_consumer_frame_witness :
  RingWrite (step (CapturePacket first4 object10) (CRead 3))
  = RingWrite (CapturePacket first4 object10).
Proof.
  refine (proj1 (proj1
    (C10_consumer_frame (CapturePacket first4 object10) (CRead 3) _ _) I)).
  - apply ring_ok_CapturePacket, object10_ok.
  - unfold call_ok, is_uint. lia.
Defined.


(** ** More on the ring: what the calls do to the buffered bytes *)

Lemma set_RingRead_id s : set_RingRead s (RingRead s) = s.
Proof. destruct s. reflexivity. Qed.

Lemma step_consumer_shape s c :
  is_consumer c -> step s c = set_RingRead s (RingRead (step s c)).
Proof. destruct c; cbn [is_consumer step]; intros H; [contradiction| | |]; reflexivity. Qed.

Lemma buffered_set_RingRead s r :
  ring_ok s -> RingRead s <= r <= RingWrite s ->
  buffered (set_RingRead s r) = drop (Z.to_nat (r - RingRead s)) (buffered s).
Proof.
  intros Hok Hr.
  pose proof (ring_ok_set_RingRead s r Hok Hr) as Hok'.
  apply (list_eq_upto _ _ (RingWrite s - r)).
  - now rewrite buffered_length by assumption.
  - rewrite length_drop, buffered_length by assumption. lia.
  - intros i Hi. rewrite buffered_lookup by (try assumption; cbn; lia).
    rewrite lookup_drop.
    replace (Z.to_nat (r - RingRead s) + Z.to_nat i)%nat
      with (Z.to_nat (r - RingRead s + i)) by lia.
    rewrite buffered_lookup by (try assumption; lia).
    cbn [set_RingRead Ring RingSize RingRead]. do 3 f_equal. lia.
Qed.

Lemma step_between s c :
  ring_ok s -> call_ok c -> is_consumer c ->
  RingRead s <= RingRead (step s c) <= RingWrite s.
Proof.
  intros Hok Hc Hcons.
  pose proof (ring_ok_step s c Hok Hc) as [_ _ _ _ Ho _ _].
  destruct (step_frame s c Hcons) as [HW _ _ _ _ _]. rewrite HW in Ho.
  split; [now apply step_RingRead|exact Ho].
Qed.

(** X1. A packet that fits into the free room is stored without loss: the
    buffered bytes are the former ones followed by the packet's, and the
    distance of the cursors grows by the length of the packet. *)
Theorem append_without_loss s p :
  ring_ok s -> packet_ok s p -> packet_bytes s p <= room s ->
  let s1 := CapturePacket p s in
  buffered s1 = buffered s ++ payload s p
  /\ RingWrite s1 - RingRead s1 = RingWrite s - RingRead s + packet_bytes s p.
Proof.
  intros Hok Hpk Hroom s1. unfold room in Hroom.
  pose proof (packet_bytes_range s p) as Hu. unfold is_uint in Hu.
  assert (Hd : dropped s (packet_bytes s p) = 0) by (unfold dropped; lia).
  split.
  - subst s1. rewrite buffered_CapturePacket, Hd by assumption. reflexivity.
  - destruct (locked_update_exact s (packet_bytes s p) Hok) as (HR & HW & _).
    { destruct Hpk. lia. }
    change (RingRead s1) with (c_read (locked_update s (packet_bytes s p))).
    change (RingWrite s1) with (c_write (locked_update s (packet_bytes s p))).
    rewrite HR, HW, Hd. lia.
Qed.

(** X2. After any run of packets that can be stored, the buffered bytes
    are the last RingSize bytes of what was buffered before followed by
    the packets' bytes in order of arrival: nothing is reordered, and only
    the oldest bytes are lost. *)
Theorem run_of_packets_is_fifo s ps :
  ring_ok s -> Forall (packet_ok s) ps ->
  buffered (CaptureThreadFunc ps s)
  = keep_last (RingSize s) (buffered s ++ stream s ps).
Proof.
  intros Hok Hps. now destruct (buffered_CaptureThreadFunc ps s Hok Hps) as (_ & _ & H).
Qed.

(** X3. Two reads in a row deliver what one read of the summed size
    delivers, and leave the same object. *)
Theorem Read_twice s a b :
  ring_ok s -> 0 <= a -> 0 <= b -> a + b < 2 ^ 32 ->
  let r1 := Read a s in
  let r2 := Read b (snd r1) in
  r_dest (fst r1) ++ r_dest (fst r2) = r_dest (fst (Read (a + b) s))
  /\ r_size (fst r1) + r_size (fst r2) = r_size (fst (Read (a + b) s))
  /\ snd r2 = snd (Read (a + b) s).
Proof.
  intros Hok Ha Hb Hab r1 r2.
  assert (Hua : is_uint a) by (unfold is_uint; lia).
  assert (Hub : is_uint b) by (unfold is_uint; lia).
  assert (Huab : is_uint (a + b)) by (unfold is_uint; lia).
  pose proof (ring_ok_Read s a Hok Hua) as Hok1. fold r1 in Hok1.
  destruct (Read_size s a Hok Hua) as [Hs1 HR1]. fold r1 in Hs1, HR1.
  destruct (Read_size (snd r1) b Hok1 Hub) as [Hs2 HR2]. fold r2 in Hs2, HR2.
  destruct (Read_size s (a + b) Hok Huab) as [Hs3 HR3].
  assert (HW1 : RingWrite (snd r1) = RingWrite s) by reflexivity.
  rewrite HW1, HR1 in Hs2.
  assert (Hsum : r_size (fst r1) + r_size (fst r2) = r_size (fst (Read (a + b) s)))
    by lia.
  split; [|split; [exact Hsum|]].
  - destruct (Read_buffered s a Hok Hua) as [Hd1 Hrest]. fold r1 in Hd1, Hrest.
    destruct (Read_buffered (snd r1) b Hok1 Hub) as [Hd2 _]. fold r2 in Hd2.
    destruct (Read_buffered s (a + b) Hok Huab) as [Hd3 _].
    rewrite Hd1, Hd2, Hd3, Hrest, take_take_drop. f_equal. lia.
  - change (snd r2)
      with (set_RingRead s (uadd (RingRead (snd r1)) (r_size (fst r2)))).
    rewrite (Read_state s (a + b)), HR1.
    destruct Hok as [_ _ _ HR0 Ho Hw _].
    assert (E1 : uadd (RingRead s + r_size (fst r1)) (r_size (fst r2))
                 = RingRead s + r_size (fst (Read (a + b) s))) by machine.
    assert (E2 : uadd (RingRead s) (r_size (fst (Read (a + b) s)))
                 = RingRead s + r_size (fst (Read (a + b) s))) by machine.
    rewrite E1, E2. reflexivity.
Qed.

Lemma to_int_range z : is_int (to_int z).
Proof.
  unfold is_int, to_int. pose proof (wrap32_range z).
  destruct (Z.ltb_spec (wrap32 z) (2 ^ 31)); lia.
Qed.

Lemma wrap32_to_int z : is_uint z -> wrap32 (to_int z) = z.
Proof.
  intros Hz. unfold is_uint in Hz.
  destruct (to_int_cases z Hz) as [[_ ->]|[_ ->]]; machine.
Qed.

Lemma Clamp_range v lo hi :
  is_int v -> is_int lo -> is_int hi -> is_int (Clamp v lo hi).
Proof.
  unfold Clamp. intros Hv Hlo Hhi.
  destruct (v <? lo); [assumption|]. destruct (hi <? v); assumption.
Qed.

Lemma Clamp_again v lo hi : Clamp v (Clamp v lo hi) hi = Clamp v lo hi.
Proof.
  unfold Clamp.
  destruct (Z.ltb_spec v lo) as [H1|H1].
  - destruct (Z.ltb_spec v lo); [reflexivity|lia].
  - destruct (Z.ltb_spec hi v) as [H2|H2].
    + destruct (Z.ltb_spec v hi); [lia|].
      destruct (Z.ltb_spec hi v); [reflexivity|lia].
    + destruct (Z.ltb_spec v v); [lia|].
      destruct (Z.ltb_spec hi v); [lia|reflexivity].
Qed.

Lemma Clamp_point v x : Clamp v x x = x.
Proof.
  unfold Clamp. destruct (Z.ltb_spec v x); [reflexivity|].
  destruct (Z.ltb_spec x v); [reflexivity|lia].
Qed.

(** X4. On an empty ring (the cursors coincide) Read returns no byte and
    leaves the object as it is, and so does JumpToTime, whatever the
    target time. *)
Theorem empty_ring_calls s size time :
  ring_ok s -> RingRead s = RingWrite s -> is_uint size ->
  r_size (fst (Read size s)) = 0
  /\ r_dest (fst (Read size s)) = []
  /\ snd (Read size s) = s
  /\ JumpToTime time s = s.
Proof.
  intros Hok He Hu. destruct (Read_size s size Hok Hu) as [Hs HR].
  assert (Hz : r_size (fst (Read size s)) = 0) by (destruct Hu; lia).
  repeat split.
  - exact Hz.
  - apply length_zero_iff_nil. rewrite Read_length by assumption. now rewrite Hz.
  - rewrite Read_state, Hz.
    replace (uadd (RingRead s) 0) with (RingRead s)
      by (destruct Hok; machine).
    apply set_RingRead_id.
  - unfold JumpToTime, jump_by. rewrite He, Clamp_point, wrap32_to_int.
    + rewrite <- He. apply set_RingRead_id.
    + destruct Hok. unfold is_uint. lia.
Qed.

Lemma buffered_nil s : ring_ok s -> RingRead s = RingWrite s -> buffered s = [].
Proof.
  intros Hok He. apply length_zero_iff_nil.
  rewrite buffered_length by assumption. lia.
Qed.

(** X5. Flush discards everything: a Read right after it returns no byte,
    stamped with the time of the write cursor; packets that arrive after
    the Flush, each of them no longer than the ring and with a buffer that
    holds its bytes, are then read back from their first byte, up to the
    last RingSize bytes of them. *)
Theorem Flush_discards s ps size :
  ring_ok s -> Forall (packet_ok s) ps -> is_uint size ->
  r_size (fst (Read size (Flush s))) = 0
  /\ r_time (fst (Read size (Flush s))) = write_time s
  /\ r_dest (fst (Read size (CaptureThreadFunc ps (Flush s))))
     = take (Z.to_nat size) (keep_last (RingSize s) (stream s ps)).
Proof.
  intros Hok Hps Hu. pose proof (ring_ok_Flush s Hok) as HokF.
  assert (He : RingRead (Flush s) = RingWrite (Flush s)) by reflexivity.
  split; [|split].
  - now destruct (empty_ring_calls (Flush s) size 0 HokF He Hu).
  - reflexivity.
  - destruct (buffered_CaptureThreadFunc ps (Flush s) HokF) as (Hokn & _ & Hbuf).
    { eapply Forall_impl; [exact Hps|]. intros p [Hf Hd]. split; assumption. }
    destruct (Read_buffered _ size Hokn Hu) as [-> _].
    rewrite Hbuf, (buffered_nil (Flush s)) by assumption. reflexivity.
Qed.

Lemma packet_ok_step s c p : packet_ok s p -> packet_ok (step s c) p.
Proof. intros [Hf Hd]. destruct c; split; assumption. Qed.

Lemma packet_ok_run cs p : forall s, packet_ok s p -> packet_ok (run cs s) p.
Proof.
  induction cs as [|c cs IH]; intros s Hp; [exact Hp|].
  rewrite run_cons. apply IH. now apply packet_ok_step.
Qed.

Lemma call_fits_step s c c' : call_fits s c' -> call_fits (step s c) c'.
Proof.
  destruct c'; cbn [call_fits]; try tauto. apply packet_ok_step.
Qed.

Lemma call_fits_ok s c : call_fits s c -> call_ok c.
Proof. destruct c; cbn; tauto. Qed.

Lemma step_RingSize s c : RingSize (step s c) = RingSize s.
Proof. destruct c; reflexivity. Qed.

Lemma step_bounded s c :
  ring_ok s -> RingWrite s <= 2 * RingSize s -> call_fits s c ->
  RingWrite (step s c) <= 2 * RingSize s
  /\ (forall p, c = CAppend p -> RingRead (step s c) <= RingSize s).
Proof.
  intros Hok Hb Hc. destruct c as [p|size|t|]; cbn [step call_fits] in *.
  - pose proof (packet_bytes_range s p) as Hu. unfold is_uint in Hu.
    destruct (locked_update_exact s (packet_bytes s p) Hok) as (HR & HW & _).
    { destruct Hc. lia. }
    change (RingRead (CapturePacket p s))
      with (c_read (locked_update s (packet_bytes s p))).
    change (RingWrite (CapturePacket p s))
      with (c_write (locked_update s (packet_bytes s p))).
    rewrite HR, HW. unfold rebase, dropped. destruct Hok, Hc.
    split; [|intros _ _];
      destruct (Z.ltb_spec (RingSize s)
                  (RingRead s + Z.max 0 (packet_bytes s p
                     - (RingSize s - (RingWrite s - RingRead s))))); lia.
  - split; [exact Hb|discriminate].
  - split; [exact Hb|discriminate].
  - split; [exact Hb|discriminate].
Qed.

Lemma run_bounded cs : forall s,
  ring_ok s -> RingWrite s <= 2 * RingSize s -> Forall (call_fits s) cs ->
  ring_ok (run cs s) /\ RingSize (run cs s) = RingSize s
  /\ RingWrite (run cs s) <= 2 * RingSize s.
Proof.
  induction cs as [|c cs IH]; intros s Hok Hb Hcs; [auto|].
  inversion Hcs as [|? ? Hc Hrest]; subst. rewrite run_cons.
  destruct (step_bounded s c Hok Hb Hc) as [Hb' _].
  destruct (IH (step s c)) as (H1 & H2 & H3).
  - apply ring_ok_step; [assumption|now apply (call_fits_ok s)].
  - now rewrite step_RingSize.
  - eapply Forall_impl; [exact Hrest|]. intros c'. apply call_fits_step.
  - rewrite step_RingSize in H2, H3. auto.
Qed.

(** X6. The rebase keeps the counters small.  From an object whose write
    cursor is at most 2 * RingSize (the new object has it at 0), and with
    packets that fit the ring, the write cursor never exceeds
    2 * RingSize, whatever the calls; right after each append the read
    cursor is at most RingSize. *)
Theorem cursors_stay_bounded s cs p :
  ring_ok s -> RingWrite s <= 2 * RingSize s ->
  Forall (call_fits s) cs -> packet_ok s p ->
  RingWrite (run cs s) <= 2 * RingSize s
  /\ RingWrite (CapturePacket p (run cs s)) <= 2 * RingSize s
  /\ RingRead (CapturePacket p (run cs s)) <= RingSize s.
Proof.
  intros Hok Hb Hcs Hp.
  destruct (run_bounded cs s Hok Hb Hcs) as (Hokn & Hsz & Hbn).
  split; [exact Hbn|].
  assert (Hfit : call_fits (run cs s) (CAppend p)) by now apply packet_ok_run.
  rewrite <- Hsz in Hbn.
  destruct (step_bounded (run cs s) (CAppend p) Hokn Hbn Hfit) as [H1 H2].
  rewrite Hsz in H1. split; [exact H1|].
  rewrite <- Hsz. now apply (H2 p).
Qed.

(** X7. JumpToTime is idempotent: a second seek to the same time changes
    nothing, on any object. *)
Theorem JumpToTime_idempotent time s :
  JumpToTime time (JumpToTime time s) = JumpToTime time s.
Proof.
  unfold JumpToTime.
  change (delta_samples time (jump_by (delta_samples time s) s))
    with (delta_samples time s).
  unfold jump_by. cbn [set_RingRead RingRead RingWrite RingTimePos BytesPerSample].
  set (v := to_int (uadd _ _)).
  set (lo := to_int (RingRead s)). set (hi := to_int (RingWrite s)).
  assert (Hc : is_int (Clamp v lo hi))
    by (apply Clamp_range; apply to_int_range).
  rewrite to_int_wrap32, (to_int_of_int _ Hc), Clamp_again. reflexivity.
Qed.

(** X8. The consumer's calls only take bytes away at the old end: after
    Read, JumpToTime or Flush the buffered bytes are the former ones
    without their first k, k being the advance of the read cursor. *)
Theorem consumer_drops_prefix s c :
  ring_ok s -> call_ok c -> is_consumer c ->
  let k := RingRead (step s c) - RingRead s in
  0 <= k <= RingWrite s - RingRead s
  /\ buffered (step s c) = drop (Z.to_nat k) (buffered s).
Proof.
  intros Hok Hc Hcons k.
  pose proof (step_between s c Hok Hc Hcons) as Hb.
  split; [subst k; lia|].
  rewrite (step_consumer_shape s c Hcons).
  now apply buffered_set_RingRead.
Qed.

(** ** More on the ring: seeking and time stamps *)

(** X9. JumpToTime moves the read cursor by [jump_by] for the sample
    count it has computed.  For every sample count, the read cursor stays
    between its old value and the write cursor, nothing else of the object
    changes and the object stays well formed; as long as the write cursor
    is below 2^31 and the target offset fits an [int], the read cursor is
    the clamp of the target offset between the two cursors. *)
Theorem seek_clamps_target d s :
  ring_ok s ->
  RingRead s <= RingRead (jump_by d s) <= RingWrite s
  /\ jump_by d s = set_RingRead s (RingRead (jump_by d s))
  /\ ring_ok (jump_by d s)
  /\ (RingWrite s < 2 ^ 31 ->
      is_int (RingTimePos s + d * BytesPerSample s) ->
      RingRead (jump_by d s)
      = Clamp (RingTimePos s + d * BytesPerSample s) (RingRead s) (RingWrite s)).
Proof.
  intros Hok. split; [now apply jump_by_between|].
  split; [reflexivity|]. split; [now apply ring_ok_jump_by|].
  intros HW Ht. now apply jump_by_in_range.
Qed.

(** X11. A packet no longer than the ring, appended to an empty ring, is
    read back as it came: the Read returns the first bytes of the packet,
    stamped with the time stamp of the packet. *)
Theorem packet_round_trip s p size :
  ring_ok s -> packet_ok s p -> RingRead s = RingWrite s -> is_uint size ->
  let r := fst (Read size (CapturePacket p s)) in
  r_dest r = take (Z.to_nat size) (payload s p)
  /\ (r_time r == packet_time p)%Q.
Proof.
  intros Hok Hpk He Hu r.
  pose proof (packet_bytes_range s p) as Hb. unfold is_uint in Hb.
  pose proof (ring_ok_CapturePacket s p Hok) as Hok1.
  assert (Hroom : packet_bytes s p <= room s)
    by (unfold room; destruct Hpk; lia).
  destruct (append_without_loss s p Hok Hpk Hroom) as [Hbuf _].
  split.
  - subst r. destruct (Read_buffered _ size Hok1 Hu) as [-> _].
    rewrite Hbuf, (buffered_nil s Hok He). reflexivity.
  - subst r. rewrite Read_time.
    destruct (locked_update_exact s (packet_bytes s p) Hok) as (HR & _ & HT & _).
    { destruct Hpk. lia. }
    unfold time_at.
    change (RingRead (CapturePacket p s))
      with (c_read (locked_update s (packet_bytes s p))).
    change (RingTimePos (CapturePacket p s))
      with (c_timepos (locked_update s (packet_bytes s p))).
    change (RingTimeValue (CapturePacket p s)) with (packet_time p).
    rewrite HR, HT.
    replace (dropped s (packet_bytes s p)) with 0
      by (unfold dropped; unfold room in Hroom; lia).
    rewrite He, Z.add_0_r. unfold Qdiv. ring.
Qed.

(** X12. After the append of a packet that fits the ring, the time of the
    read cursor is the packet's time stamp minus the duration of the older
    bytes that are still buffered. *)
Theorem read_time_after_append s p :
  ring_ok s -> packet_bytes s p <= RingSize s ->
  let kept := RingWrite s - RingRead s - dropped s (packet_bytes s p) in
  0 <= kept
  /\ (read_time (CapturePacket p s) == packet_time p - seconds_of s kept)%Q.
Proof.
  intros Hok Hfit kept.
  pose proof (packet_bytes_range s p) as Hb. unfold is_uint in Hb.
  destruct (dropped_bounds s (packet_bytes s p) Hok) as [Hd _]; [lia|].
  split; [subst kept; lia|].
  destruct (locked_update_exact s (packet_bytes s p) Hok) as (HR & _ & HT & _);
    [lia|].
  unfold read_time, seconds_of.
  change (RingRead (CapturePacket p s))
    with (c_read (locked_update s (packet_bytes s p))).
  change (RingTimePos (CapturePacket p s))
    with (c_timepos (locked_update s (packet_bytes s p))).
  change (RingTimeValue (CapturePacket p s)) with (packet_time p).
  change (bytes_per_second (CapturePacket p s)) with (bytes_per_second s).
  rewrite HR, HT. subst kept. unfold Qdiv, Zminus.
  rewrite !inject_Z_plus, !inject_Z_opp. ring.
Qed.

(** X13. The copy of a packet changes no cell of the ring outside the
    indices [CapturePacket_touched] lists, and never the length of the
    storage. *)
Theorem append_touches_only s p (j : nat) :
  0 < RingSize s ->
  length (Ring (CapturePacket p s)) = length (Ring s)
  /\ (Z.of_nat j ∉ CapturePacket_touched p s ->
      Ring (CapturePacket p s) !! j = Ring s !! j).
Proof.
  intros Hsz. split.
  - apply store_packet_length.
  - intros Hout. unfold CapturePacket_touched in Hout.
    cbn [CapturePacket Ring]. apply store_packet_outside; [|exact Hout].
    rewrite locked_update_pos. apply Z.mod_pos_bound. lia.
Qed.

(** ** More on the ring: the content of the new array is never seen *)

Lemma bookkeeping_step s s' c :
  bookkeeping s = bookkeeping s' ->
  bookkeeping (step s c) = bookkeeping (step s' c).
Proof.
  destruct s, s'. unfold bookkeeping. cbn.
  intros H. injection H. intros. subst.
  destruct c; reflexivity.
Qed.

Lemma bookkeeping_uses s s' p :
  bookkeeping s = bookkeeping s' ->
  dropped s (packet_bytes s p) = dropped s' (packet_bytes s' p)
  /\ payload s p = payload s' p
  /\ (packet_ok s p -> packet_ok s' p)
  /\ RingRead s = RingRead s'.
Proof.
  destruct s, s'. unfold bookkeeping. cbn.
  intros H. injection H. intros. subst.
  split; [reflexivity|]. split; [reflexivity|]. split; [|reflexivity].
  intros [Hf Hd]. split; assumption.
Qed.

Lemma buffered_step_agree s s' c :
  ring_ok s -> ring_ok s' -> call_fits s c ->
  bookkeeping s = bookkeeping s' -> buffered s = buffered s' ->
  buffered (step s c) = buffered (step s' c).
Proof.
  intros Hok Hok' Hc Hbk Hbuf.
  pose proof (bookkeeping_step s s' c Hbk) as Hbk1.
  destruct c as [p|size|t|].
  - destruct (bookkeeping_uses s s' p Hbk) as (Hd & Hpay & Hpk & _).
    cbn [step call_fits] in *.
    rewrite !buffered_CapturePacket by auto. now rewrite Hd, Hpay, Hbuf.
  - destruct (bookkeeping_uses s s' (Build_packet [] 0 0 0) Hbk) as (_ & _ & _ & HR).
    destruct (bookkeeping_uses _ _ (Build_packet [] 0 0 0) Hbk1) as (_ & _ & _ & HR1).
    destruct (consumer_drops_prefix s (CRead size) Hok Hc I) as [_ ->].
    destruct (consumer_drops_prefix s' (CRead size) Hok' Hc I) as [_ ->].
    now rewrite HR, HR1, Hbuf.
  - destruct (bookkeeping_uses s s' (Build_packet [] 0 0 0) Hbk) as (_ & _ & _ & HR).
    destruct (bookkeeping_uses _ _ (Build_packet [] 0 0 0) Hbk1) as (_ & _ & _ & HR1).
    destruct (consumer_drops_prefix s (CJumpToTime t) Hok I I) as [_ ->].
    destruct (consumer_drops_prefix s' (CJumpToTime t) Hok' I I) as [_ ->].
    now rewrite HR, HR1, Hbuf.
  - destruct (bookkeeping_uses s s' (Build_packet [] 0 0 0) Hbk) as (_ & _ & _ & HR).
    destruct (bookkeeping_uses _ _ (Build_packet [] 0 0 0) Hbk1) as (_ & _ & _ & HR1).
    destruct (consumer_drops_prefix s CFlush Hok I I) as [_ ->].
    destruct (consumer_drops_prefix s' CFlush Hok' I I) as [_ ->].
    now rewrite HR, HR1, Hbuf.
Qed.

Lemma call_fits_bookkeeping s s' c :
  bookkeeping s = bookkeeping s' -> call_fits s c -> call_fits s' c.
Proof.
  intros Hbk. destruct c; cbn [call_fits]; auto.
  now destruct (bookkeeping_uses s s' p Hbk) as (_ & _ & H & _).
Qed.

Lemma run_agree cs : forall s s',
  ring_ok s -> ring_ok s' -> Forall (call_fits s) cs ->
  bookkeeping s = bookkeeping s' -> buffered s = buffered s' ->
  ring_ok (run cs s) /\ ring_ok (run cs s')
  /\ bookkeeping (run cs s) = bookkeeping (run cs s')
  /\ buffered (run cs s) = buffered (run cs s').
Proof.
  induction cs as [|c cs IH]; intros s s' Hok Hok' Hcs Hbk Hbuf; [auto|].
  inversion Hcs as [|? ? Hc Hrest]; subst. rewrite !run_cons.
  apply IH.
  - apply ring_ok_step; [assumption|now apply (call_fits_ok s)].
  - apply ring_ok_step; [assumption|now apply (call_fits_ok s)].
  - eapply Forall_impl; [exact Hrest|]. intros c'. apply call_fits_step.
  - now apply bookkeeping_step.
  - now apply buffered_step_agree.
Qed.

Lemma Read_agree s s' size :
  ring_ok s -> ring_ok s' -> is_uint size ->
  bookkeeping s = bookkeeping s' -> buffered s = buffered s' ->
  fst (Read size s) = fst (Read size s').
Proof.
  intros Hok Hok' Hu Hbk Hbuf.
  assert (Hd : r_dest (fst (Read size s)) = r_dest (fst (Read size s'))).
  { destruct (Read_buffered s size Hok Hu) as [-> _].
    destruct (Read_buffered s' size Hok' Hu) as [-> _]. now rewrite Hbuf. }
  revert Hd. destruct s, s'. unfold bookkeeping in Hbk. cbn in Hbk.
  injection Hbk. intros. subst.
  cbn [Read fst r_dest] in *.
  match goal with H : _ ++ _ = _ ++ _ |- _ => rewrite H end. reflexivity.
Qed.

(** X14. As long as every call runs to its end before the next one
    begins (the copy of a packet included), what Read returns does not
    depend on what the new array happened to hold.  Two sessions on the
    same format that differ only in the initial content of the ring
    return, after the same calls (with packets that can be stored), the
    same count, the same bytes and the same time stamp.  A Read that runs
    between the locked section of a packet and its copy is another
    matter, treated at the end. *)
Theorem Read_shows_no_stale_bytes a g fmt fresh1 fresh2 s1 s2 cs size :
  AudioCapture_WASAPI a g fmt fresh1 = Started s1 ->
  AudioCapture_WASAPI a g fmt fresh2 = Started s2 ->
  0 < RingSize s1 < 2 ^ 31 ->
  Forall (call_fits s1) cs -> is_uint size ->
  fst (Read size (run cs s1)) = fst (Read size (run cs s2)).
Proof.
  intros H1 H2 Hsz Hcs Hu.
  assert (Hbk : bookkeeping s1 = bookkeeping s2).
  { revert H1 H2. unfold AudioCapture_WASAPI, CHECK, ASSERT.
    destruct (FAILED a); [discriminate|]. destruct (FAILED g); [discriminate|].
    destruct (float_encoded fmt); [|discriminate].
    intros [= <-] [= <-]. reflexivity. }
  assert (Hsz2 : 0 < RingSize s2 < 2 ^ 31).
  { unfold bookkeeping in Hbk. injection Hbk. intros _ _ _ _ _ <- _. exact Hsz. }
  destruct (ring_ok_constructor _ _ _ _ _ H1 Hsz) as (Hok1 & HR1 & HW1 & _).
  destruct (ring_ok_constructor _ _ _ _ _ H2 Hsz2) as (Hok2 & HR2 & HW2 & _).
  assert (Hbuf : buffered s1 = buffered s2)
    by (rewrite !buffered_nil by (try assumption; lia); reflexivity).
  destruct (run_agree cs s1 s2 Hok1 Hok2 Hcs Hbk Hbuf) as (Ha & Hb & Hc & Hd).
  now apply Read_agree.
Qed.

(** ** GetInfo *)

Lemma step_info s c : GetInfo (step s c) = GetInfo s.
Proof. destruct c; reflexivity. Qed.

Lemma run_info cs : forall s, GetInfo (run cs s) = GetInfo s.
Proof.
  induction cs as [|c cs IH]; intros s; [reflexivity|].
  rewrite run_cons, IH. apply step_info.
Qed.

(** X15. GetInfo of a started session reports the channels and the rate of
    the mix format, and keeps reporting the same after any calls; for a
    mix format of 32 bits per sample with fewer than 2^16 channels its
    bytes per sample are four times the channels; the ring holds what it
    reports for one second: RingSize is the rate times the bytes per
    sample as a 32-bit product. *)
Theorem GetInfo_of_session a g fmt fresh s0 cs :
  AudioCapture_WASAPI a g fmt fresh = Started s0 ->
  let info := GetInfo (run cs s0) in
  info = GetInfo s0
  /\ info_Channels info = nChannels fmt
  /\ info_SampleRate info = nSamplesPerSec fmt
  /\ RingSize (run cs s0)
     = umul (info_SampleRate info) (info_BytesPerSample info)
  /\ (wBitsPerSample fmt = 32 -> 0 <= nChannels fmt < 2 ^ 16 ->
      info_BytesPerSample info = 4 * nChannels fmt).
Proof.
  intros H1 info. subst info. rewrite run_info.
  assert (Hsz : RingSize (run cs s0) = RingSize s0).
  { clear H1. revert s0. induction cs as [|c cs IH]; intros s0; [reflexivity|].
    rewrite run_cons, IH. apply step_RingSize. }
  rewrite Hsz. revert H1. unfold AudioCapture_WASAPI, CHECK, ASSERT.
  destruct (FAILED a); [discriminate|]. destruct (FAILED g); [discriminate|].
  destruct (float_encoded fmt); [|discriminate].
  intros [= <-]. cbn. repeat split.
  intros -> Hch. now apply float32_BytesPerSample.
Qed.

(** ** The pace of the capture thread *)

(** X16. The capture thread waits at most half the duration of the
    client's buffer and less than a millisecond short of it: with a
    positive sample rate and 1000 * BufferSize below 2^31, the wait w in
    milliseconds satisfies
    2 w * rate <= 1000 * BufferSize < (2 w + 2) * rate. *)
Theorem wait_is_half_a_buffer BufferSize s :
  0 < nSamplesPerSec (Format s) -> 0 <= BufferSize ->
  1000 * BufferSize < 2 ^ 31 ->
  let w := wait_ms BufferSize s in
  0 <= w
  /\ 2 * w * nSamplesPerSec (Format s) <= 1000 * BufferSize
  /\ 1000 * BufferSize < (2 * w + 2) * nSamplesPerSec (Format s).
Proof.
  intros Hsr HB Hsmall w. subst w. unfold wait_ms, bufferMs.
  set (sr := nSamplesPerSec (Format s)) in *.
  unfold umul. rewrite wrap32_small by lia.
  assert (Hq : 0 <= 1000 * BufferSize / sr <= 1000 * BufferSize).
  { split; [apply Z.div_pos; lia|]. apply Z.div_le_upper_bound; nia. }
  rewrite to_int_small by lia.
  rewrite Z.quot_div_nonneg by lia.
  set (q := 1000 * BufferSize / sr) in *.
  assert (Hdm : 1000 * BufferSize = sr * q + (1000 * BufferSize) mod sr)
    by (apply Z.div_mod; lia).
  pose proof (Z.mod_pos_bound (1000 * BufferSize) sr Hsr) as Hm.
  assert (Hq2 : q = 2 * (q / 2) + q mod 2) by (apply Z.div_mod; lia).
  pose proof (Z.mod_pos_bound q 2 ltac:(lia)) as Hm2.
  set (h := q / 2) in *.
  repeat split; [apply Z.div_pos; lia| nia | nia].
Qed.

(** ** The list of devices *)

Lemma add_items_Started flow items : forall ds,
  Forall (fun hr => FAILED hr = false) (fst <$> items) ->
  add_items flow items ds = Started (ds ++ (entry flow false ∘ snd <$> items)).
Proof.
  induction items as [|[hr dev] items IH]; intros ds Hall.
  - cbn. now rewrite app_nil_r.
  - cbn [fmap list_fmap fst] in Hall. inversion Hall as [|? ? Hhr Hrest]; subst.
    cbn [add_items]. unfold CHECK. rewrite Hhr.
    rewrite IH by assumption. rewrite <- app_assoc. reflexivity.
Qed.

Lemma add_items_Fatal flow items : forall ds,
  Exists (fun hr => FAILED hr = true) (fst <$> items) ->
  add_items flow items ds = Fatal.
Proof.
  induction items as [|[hr dev] items IH]; intros ds Hex.
  - inversion Hex.
  - cbn [add_items]. unfold CHECK. destruct (FAILED hr) eqn:Hhr; [reflexivity|].
    apply IH. cbn [fmap list_fmap fst] in Hex.
    inversion Hex as [? ? Hh|? ? Hr]; subst; [cbn in Hh; congruence|exact Hr].
Qed.

Lemma all_or_one (l : list Z) :
  Forall (fun hr => FAILED hr = false) l \/ Exists (fun hr => FAILED hr = true) l.
Proof.
  induction l as [|hr l [IH|IH]].
  - left. constructor.
  - destruct (FAILED hr) eqn:Hhr.
    + right. now constructor.
    + left. now constructor.
  - right. now constructor 2.
Qed.

Lemma InitAudioCapture_Started e ds :
  Forall (fun hr => FAILED hr = false) (checked_results e) ->
  InitAudioCapture e ds = Started (ds ++ found_outputs e ++ found_inputs e).
Proof.
  unfold checked_results. intros Hall.
  apply Forall_app in Hall as [H5 Hall].
  apply Forall_app in Hall as [Hr Hall].
  apply Forall_app in Hall as [H2 Hc].
  inversion H5 as [|? ? Ha H5a]; subst. inversion H5a as [|? ? Hb H5b]; subst.
  inversion H5b as [|? ? Hc' H5c]; subst. inversion H5c as [|? ? Hd H5d]; subst.
  inversion H5d as [|? ? He _]; subst.
  inversion H2 as [|? ? Hf H2a]; subst. inversion H2a as [|? ? Hg _]; subst.
  unfold InitAudioCapture, CHECK. rewrite Ha, Hb, Hc', Hd, He.
  rewrite add_items_Started by assumption. cbn [and_then]. rewrite Hf, Hg.
  unfold found_outputs, found_inputs.
  destruct (SUCCEEDED (hrGetDefaultCapture e));
    rewrite add_items_Started by assumption;
    rewrite <- ?app_assoc; reflexivity.
Qed.

Lemma InitAudioCapture_Fatal e ds :
  Exists (fun hr => FAILED hr = true) (checked_results e) ->
  InitAudioCapture e ds = Fatal.
Proof.
  unfold checked_results, InitAudioCapture, CHECK. intros Hex.
  destruct (FAILED (hrCoInitializeEx e)) eqn:Ha; [reflexivity|].
  destruct (FAILED (hrCoCreateInstance e)) eqn:Hb; [reflexivity|].
  destruct (FAILED (hrGetDefaultRender e)) eqn:Hc; [reflexivity|].
  destruct (FAILED (hrEnumRender e)) eqn:Hd; [reflexivity|].
  destruct (FAILED (hrGetCountRender e)) eqn:He; [reflexivity|].
  destruct (all_or_one (fst <$> collection_render e)) as [Hr|Hr].
  - rewrite add_items_Started by assumption. cbn [and_then].
    destruct (FAILED (hrEnumCapture e)) eqn:Hf; [reflexivity|].
    destruct (FAILED (hrGetCountCapture e)) eqn:Hg; [reflexivity|].
    apply add_items_Fatal.
    apply Exists_app in Hex as [Hex|Hex].
    { repeat (inversion Hex as [? ? Hh|? ? Hex']; subst;
              [cbn in Hh; congruence|clear Hex; rename Hex' into Hex]).
      inversion Hex. }
    apply Exists_app in Hex as [Hex|Hex].
    { exfalso. clear -Hr Hex. induction Hex as [? ? Hh|? ? Hex' IH].
      - inversion Hr; subst. cbn in *. congruence.
      - inversion Hr; subst. auto. }
    apply Exists_app in Hex as [Hex|Hex]; [|exact Hex].
    repeat (inversion Hex as [? ? Hh|? ? Hex']; subst;
            [cbn in Hh; congruence|clear Hex; rename Hex' into Hex]).
    inversion Hex.
  - now rewrite add_items_Fatal.
Qed.

Lemma FAILED_false hr : FAILED hr = false <-> 0 <= hr.
Proof. unfold FAILED. destruct (Z.ltb_spec hr 0); split; intros; (congruence || lia). Qed.

Lemma FAILED_true hr : FAILED hr = true <-> hr < 0.
Proof. unfold FAILED. destruct (Z.ltb_spec hr 0); split; intros; (congruence || lia). Qed.

Lemma InitAudioCapture_cases e ds :
  (Forall (fun hr => FAILED hr = false) (checked_results e)
   /\ InitAudioCapture e ds = Started (ds ++ found_outputs e ++ found_inputs e))
  \/ (Exists (fun hr => FAILED hr = true) (checked_results e)
      /\ InitAudioCapture e ds = Fatal).
Proof.
  destruct (all_or_one (checked_results e)) as [H|H].
  - left. split; [exact H|now apply InitAudioCapture_Started].
  - right. split; [exact H|now apply InitAudioCapture_Fatal].
Qed.

(** X17. What a successful InitAudioCapture leaves in Devices: the entries
    it found are added behind those already there (nothing is cleared);
    the first of them is the default output, marked as default; all
    outputs come before all inputs; and their number is one for the
    default output, one for each endpoint of the two collections, and one
    more when there is a default input. *)
Theorem device_list_shape e ds ds' :
  InitAudioCapture e ds = Started ds' ->
  ds' = ds ++ found_outputs e ++ found_inputs e
  /\ ds' !! length ds = Some (entry eRender true (defltdev_render e))
  /\ Forall (fun d => Flow d = eRender) (found_outputs e)
  /\ Forall (fun d => Flow d = eCapture) (found_inputs e)
  /\ length ds'
     = (length ds + 1 + length (collection_render e)
        + (if SUCCEEDED (hrGetDefaultCapture e) then 1 else 0)
        + length (collection_capture e))%nat.
Proof.
  intros Hs.
  destruct (InitAudioCapture_cases e ds) as [[_ H]|[_ H]]; [|congruence].
  rewrite H in Hs. injection Hs as <-.
  split; [reflexivity|]. split; [|split; [|split]].
  - rewrite lookup_app_r by lia. now rewrite Nat.sub_diag.
  - unfold found_outputs. constructor; [reflexivity|].
    apply Forall_fmap, Forall_forall. now intros [hr dev] _.
  - unfold found_inputs. apply Forall_app. split.
    + destruct (SUCCEEDED _); repeat constructor.
    + apply Forall_fmap, Forall_forall. now intros [hr dev] _.
  - unfold found_outputs, found_inputs.
    rewrite !length_app. cbn [length]. rewrite !length_app, !length_fmap.
    destruct (SUCCEEDED _); cbn [length]; lia.
Qed.

(** X18. InitAudioCapture is fatal exactly when one of the results it
    checks is a failure.  The result of asking for the default input is
    not among them: without a default microphone the list is built all the
    same, with no input marked as default. *)
Theorem InitAudioCapture_failure e ds :
  (InitAudioCapture e ds = Fatal
   <-> Exists (fun hr => hr < 0) (checked_results e))
  /\ (hrGetDefaultCapture e < 0 ->
      Forall (fun hr => 0 <= hr) (checked_results e) ->
      InitAudioCapture e ds
      = Started (ds ++ found_outputs e
                 ++ (entry eCapture false ∘ snd <$> collection_capture e))).
Proof.
  split.
  - destruct (InitAudioCapture_cases e ds) as [[Hall H]|[Hex H]]; rewrite H; split.
    + discriminate.
    + intros Hex. exfalso. apply Exists_exists in Hex as (hr & Hin & Hneg).
      rewrite Forall_forall in Hall. apply Hall, FAILED_false in Hin. lia.
    + intros _. eapply Exists_impl; [exact Hex|]. intros hr. apply FAILED_true.
    + reflexivity.
  - intros Hmic Hall.
    rewrite InitAudioCapture_Started
      by (eapply Forall_impl; [exact Hall|]; intros hr; apply FAILED_false).
    unfold found_inputs, SUCCEEDED.
    apply FAILED_true in Hmic. rewrite Hmic. reflexivity.
Qed.

Lemma GetAudioDevices_omap ds into :
  GetAudioDevices ds into = omap device_name ds.
Proof.
  unfold GetAudioDevices.
  set (f := fun (acc : list string) d =>
              match device_name d with Some n => acc ++ [n] | None => acc end).
  assert (H : forall acc, foldl f acc ds = acc ++ omap device_name ds).
  { induction ds as [|d ds IH]; intros acc; cbn.
    - now rewrite app_nil_r.
    - rewrite IH. unfold f. destruct (device_name d); [|reflexivity].
      now rewrite <- app_assoc. }
  apply (H []).
Qed.

Lemma omap_all_named (ds : list AudioDevice) :
  Forall (fun d => is_Some (device_name d)) ds ->
  Some <$> omap device_name ds = device_name <$> ds.
Proof.
  induction ds as [|d ds IH]; intros Hall; [reflexivity|].
  inversion Hall as [|? ? [n Hn] Hrest]; subst. cbn. rewrite Hn. cbn.
  f_equal. now apply IH.
Qed.

Lemma length_omap_le (ds : list AudioDevice) :
  (length (omap device_name ds) <= length ds)%nat
  /\ (length (omap device_name ds) = length ds ->
      Forall (fun d => is_Some (device_name d)) ds).
Proof.
  induction ds as [|d ds [IH1 IH2]]; [split; [reflexivity|constructor]|].
  cbn. destruct (device_name d) eqn:Hn; cbn; split; try lia.
  intros Hlen. constructor; [eauto|]. apply IH2. lia.
Qed.

(** X19. The names GetAudioDevices returns and the devices: there are
    never more names than devices; the default entries always get a name;
    as long as every device up to index i has a name, the name at index i
    is the name of the device at index i; and the list of names is as long
    as the list of devices only if every device has a name. *)
Theorem names_follow_devices ds into i d :
  ds !! i = Some d ->
  (length (GetAudioDevices ds into) <= length ds)%nat
  /\ (IsDefault d = true -> is_Some (device_name d))
  /\ (Forall (fun d => is_Some (device_name d)) (take (S i) ds) ->
      GetAudioDevices ds into !! i = device_name d)
  /\ (length (GetAudioDevices ds into) = length ds ->
      Forall (fun d => is_Some (device_name d)) ds).
Proof.
  intros Hd. rewrite GetAudioDevices_omap.
  destruct (length_omap_le ds) as [Hle Hall].
  split; [exact Hle|]. split; [|split; [|exact Hall]].
  - intros Hdef. unfold device_name. rewrite Hdef. eauto.
  - intros Hnamed.
    rewrite <- (take_drop (S i) ds) at 1. rewrite omap_app.
    pose proof (omap_all_named _ Hnamed) as Heq.
    assert (Hlen : length (omap device_name (take (S i) ds)) = S i).
    { apply (f_equal length) in Heq. rewrite !length_fmap, length_take in Heq.
      apply lookup_lt_Some in Hd. lia. }
    rewrite lookup_app_l by lia.
    apply (f_equal (fun l => l !! i)) in Heq.
    rewrite !list_lookup_fmap, lookup_take_lt, Hd in Heq by lia. cbn in Heq.
    destruct (omap device_name (take (S i) ds) !! i) as [n|] eqn:Hn.
    + cbn in Heq. destruct (device_name d); [congruence|discriminate].
    + apply lookup_ge_None in Hn. lia.
Qed.

(** X20. A name tells how the device will be captured: the name
    GetAudioDevices gives a device announces an output (it starts with
    "Output: " or is the fixed name of the default output) exactly when
    the constructor takes that device for loopback capture. *)
Theorem names_tell_the_mode d name :
  device_name d = Some name -> names_output name = is_loopback d.
Proof.
  unfold device_name, names_output, is_loopback.
  destruct (IsDefault d).
  - destruct (Flow d); intros [= <-]; reflexivity.
  - destruct (FAILED (hrOpenPropertyStore (Device d))); [discriminate|].
    destruct (FAILED (hrGetValue (Device d))); [discriminate|].
    destruct (Flow d); intros [= <-];
      destruct (pwszVal (Device d)); reflexivity.
Qed.

(** ** Further instances at concrete sessions *)

Import Desk.

Lemma after_first4_ok : ring_ok (CapturePacket first4 object10).
Proof. apply ring_ok_CapturePacket, object10_ok. Qed.

Lemma append_without_loss_witness :
  buffered (CapturePacket first4 object10)
  = buffered object10 ++ payload object10 first4.
Proof.
  refine (proj1 (append_without_loss object10 first4 object10_ok first4_ok _)).
  evaluate.
Defined.

Lemma run_of_packets_is_fifo_witness :
  buffered (CaptureThreadFunc [first4; next8] object10)
  = keep_last (RingSize object10) (buffered object10 ++ stream object10 [first4; next8]).
Proof.
  refine (run_of_packets_is_fifo object10 [first4; next8] object10_ok _).
  repeat constructor; [apply first4_ok|apply next8_ok].
Defined.

Lemma Read_twice_witness :
  r_dest (fst (Read 1 (CapturePacket first4 object10)))
  ++ r_dest (fst (Read 2 (snd (Read 1 (CapturePacket first4 object10)))))
  = r_dest (fst (Read (1 + 2) (CapturePacket first4 object10))).
Proof.
  refine (proj1 (Read_twice (CapturePacket first4 object10) 1 2
                   after_first4_ok _ _ _)); lia.
Defined.

Lemma empty_ring_calls_witness : JumpToTime (1 # 2) object10 = object10.
Proof.
  refine (proj2 (proj2 (proj2
    (empty_ring_calls object10 5 (1 # 2) object10_ok eq_refl _)))).
  unfold is_uint. lia.
Defined.

Lemma Flush_discards_witness :
  r_size (fst (Read 3 (Flush (CapturePacket first4 object10)))) = 0.
Proof.
  refine (proj1 (Flush_discards (CapturePacket first4 object10) [next8] 3
                   after_first4_ok _ _)).
  - repeat constructor. apply packet_ok_CapturePacket, next8_ok.
  - unfold is_uint. lia.
Defined.

Lemma cursors_stay_bounded_witness :
  RingRead (CapturePacket next8
              (run [CAppend first4; CRead 2; CAppend next8] object10))
  <= RingSize object10.
Proof.
  refine (proj2 (proj2
    (cursors_stay_bounded object10 [CAppend first4; CRead 2; CAppend next8]
       next8 object10_ok _ _ next8_ok))).
  - evaluate.
  - repeat constructor; [apply first4_ok|unfold is_uint; lia..|apply next8_ok].
Defined.

Lemma consumer_drops_prefix_witness :
  buffered (step (CapturePacket first4 object10) (CRead 3))
  = drop (Z.to_nat (RingRead (step (CapturePacket first4 object10) (CRead 3))
                    - RingRead (CapturePacket first4 object10)))
      (buffered (CapturePacket first4 object10)).
Proof.
  refine (proj2 (consumer_drops_prefix (CapturePacket first4 object10) (CRead 3)
                   after_first4_ok _ I)).
  unfold call_ok, is_uint. lia.
Defined.

Lemma seek_clamps_target_witness :
  RingRead (jump_by 2 (CapturePacket first4 object10))
  = Clamp (RingTimePos (CapturePacket first4 object10)
           + 2 * BytesPerSample (CapturePacket first4 object10))
      (RingRead (CapturePacket first4 object10))
      (RingWrite (CapturePacket first4 object10)).
Proof.
  refine (proj2 (proj2 (proj2
            (seek_clamps_target 2 (CapturePacket first4 object10)
               after_first4_ok))) _ _); evaluate.
Defined.

Lemma packet_round_trip_witness :
  r_dest (fst (Read 10 (CapturePacket next8 object10)))
  = take (Z.to_nat 10) (payload object10 next8).
Proof.
  refine (proj1 (packet_round_trip object10 next8 10 object10_ok next8_ok
                   eq_refl _)).
  unfold is_uint. lia.
Defined.

Lemma read_time_after_append_witness :
  (read_time (CapturePacket next8 (CapturePacket first4 object10))
   == packet_time next8
      - seconds_of (CapturePacket first4 object10)
          (RingWrite (CapturePacket first4 object10)
           - RingRead (CapturePacket first4 object10)
           - dropped (CapturePacket first4 object10)
               (packet_bytes (CapturePacket first4 object10) next8)))%Q.
Proof.
  refine (proj2 (read_time_after_append (CapturePacket first4 object10) next8
                   after_first4_ok _)).
  evaluate.
Defined.

Lemma append_touches_only_witness :
  Ring (CapturePacket first4 object10) !! 7%nat = Ring object10 !! 7%nat.
Proof.
  refine (proj2 (append_touches_only object10 first4 7 _) _).
  - evaluate.
  - intros Hin. apply list_elem_of_In in Hin. vm_compute in Hin.
    intuition discriminate.
Defined.

Lemma blank10_started :
  AudioCapture_WASAPI 0 0 fmt10 (fun _ => x00) = Started blank10.
Proof. reflexivity. Qed.

Lemma Read_shows_no_stale_bytes_witness :
  fst (Read 10 (run [CAppend first4; CJumpToTime (1 # 10)] object10))
  = fst (Read 10 (run [CAppend first4; CJumpToTime (1 # 10)] blank10)).
Proof.
  refine (Read_shows_no_stale_bytes 0 0 fmt10 stale (fun _ => x00)
            object10 blank10 [CAppend first4; CJumpToTime (1 # 10)] 10
            object10_started blank10_started _ _ _).
  - evaluate.
  - repeat constructor. apply first4_ok.
  - unfold is_uint. lia.
Defined.

Lemma GetInfo_of_session_witness :
  GetInfo (run [CAppend first4; CRead 2] object10) = GetInfo object10.
Proof.
  exact (proj1 (GetInfo_of_session 0 0 fmt10 stale object10
                  [CAppend first4; CRead 2] object10_started)).
Defined.

Lemma wait_is_half_a_buffer_witness :
  2 * wait_ms 1 object10 * nSamplesPerSec (Format object10) <= 1000 * 1.
Proof.
  refine (proj1 (proj2 (wait_is_half_a_buffer 1 object10 _ _ _))); evaluate.
Defined.

Lemma device_list_shape_witness :
  (found_outputs desk ++ found_inputs desk) !! 0%nat
  = Some (entry eRender true (defltdev_render desk)).
Proof.
  exact (proj1 (proj2
    (device_list_shape desk [] (found_outputs desk ++ found_inputs desk)
       eq_refl))).
Defined.

Lemma InitAudioCapture_failure_witness :
  InitAudioCapture desk_without_microphone []
  = Started ([] ++ found_outputs desk_without_microphone
             ++ (entry eCapture false ∘ snd
                 <$> collection_capture desk_without_microphone)).
Proof.
  refine (proj2 (InitAudioCapture_failure desk_without_microphone []) _ _).
  - evaluate.
  - apply Forall_forall. intros hr Hin. apply list_elem_of_In in Hin.
    vm_compute in Hin. intuition (subst; lia).
Defined.

Lemma names_follow_devices_witness :
  GetAudioDevices (found_outputs desk ++ found_inputs desk) [] !! 1%nat
  = device_name (entry eRender false speakers).
Proof.
  refine (proj1 (proj2 (proj2
    (names_follow_devices (found_outputs desk ++ found_inputs desk) [] 1
       (entry eRender false speakers) eq_refl))) _).
  repeat constructor; eexists; reflexivity.
Defined.

Lemma names_tell_the_mode_witness :
  names_output "Output: Speakers" = is_loopback (entry eRender false speakers).
Proof.
  exact (names_tell_the_mode (entry eRender false speakers) "Output: Speakers"
           eq_refl).
Defined.

(** ** A Read between the locked section and the copy *)

Lemma ring_ok_CapturePacket_locked s p :
  ring_ok s -> ring_ok (CapturePacket_locked p s).
Proof.
  intros Hok.
  destruct (locked_update_bounds s (packet_bytes s p) Hok (packet_bytes_range s p))
    as (H1 & H2 & H3 & H4 & _).
  destruct Hok as [Hsz Hrate Hst _ _ _ _].
  split; cbn [CapturePacket_locked RingSize RingRead RingWrite Ring];
    assumption.
Qed.

(** X21. The capture thread leaves the locked section before it copies
    the packet.  A Read that runs in between, on a ring that was empty,
    finds the cursors of the packet and the storage of before: it returns
    as many bytes as the packet brings (or as are asked for), and these
    are the cells the ring held at the write cursor before the packet,
    not the bytes of the packet; the copy then completes the call. *)
Theorem Read_before_the_copy s p size :
  ring_ok s -> packet_bytes s p <= RingSize s ->
  RingRead s = RingWrite s -> is_uint size ->
  let r := fst (Read size (CapturePacket_locked p s)) in
  r_size r = Z.min size (packet_bytes s p)
  /\ (forall i, 0 <= i < r_size r ->
        r_dest r !! Z.to_nat i
        = Ring s !! Z.to_nat ((RingWrite s + i) mod RingSize s))
  /\ CapturePacket p s
     = set_Ring (CapturePacket_locked p s)
         (store_packet (Ring s) (RingSize s) (RingWrite s mod RingSize s)
            (packet_bytes s p) (is_silent p) (data p)).
Proof.
  intros Hok Hfit He Hu r.
  pose proof (packet_bytes_range s p) as Hb. unfold is_uint in Hb.
  pose proof (ring_ok_CapturePacket_locked s p Hok) as Hokw.
  destruct (locked_update_exact s (packet_bytes s p) Hok) as (HR & HW & _ & HP & _);
    [lia|].
  assert (Hdrop : dropped s (packet_bytes s p) = 0)
    by (unfold dropped; destruct Hok; lia).
  assert (Hshift : rebase s (packet_bytes s p) = 0
                   \/ rebase s (packet_bytes s p) = RingSize s)
    by (unfold rebase; destruct (RingSize s <? _); auto).
  destruct (Read_size _ size Hokw Hu) as [Hsize _].
  cbn [CapturePacket_locked RingRead RingWrite] in Hsize.
  assert (Hsz : r_size r = Z.min size (packet_bytes s p)).
  { subst r. rewrite Hsize, HR, HW, Hdrop, He. f_equal. lia. }
  split; [exact Hsz|]. split.
  - intros i Hi. subst r. rewrite Read_lookup by assumption.
    cbn [CapturePacket_locked RingRead RingSize Ring].
    rewrite HR, Hdrop, He. do 2 f_equal.
    destruct Hshift as [->| ->].
    + f_equal. lia.
    + replace (RingWrite s + 0 - RingSize s + i)
        with (RingWrite s + i + (-1) * RingSize s) by lia.
      apply Z_mod_plus_full.
  - unfold CapturePacket, CapturePacket_locked, set_Ring.
    cbn [Format Ring RingSize RingRead RingWrite RingTimePos RingTimeValue
         BytesPerSample].
    now rewrite locked_update_pos.
Qed.

Lemma Read_before_the_copy_witness :
  r_size (fst (Read 10 (CapturePacket_locked first4 object10)))
  = Z.min 10 (packet_bytes object10 first4).
Proof.
  refine (proj1 (Read_before_the_copy object10 first4 10 object10_ok _ _ _));
    evaluate.
Defined.

(** On the ring of the scenarios: what such a Read returns, and what the
    Read after the copy returns. *)
Example window_on_object10 :
  r_dest (fst (Read 10 (CapturePacket_locked first4 object10)))
  = [xff; xff; xff; xff]
  /\ r_dest (fst (Read 10 (CapturePacket first4 object10)))
     = [x01; x02; x03; x04].
Proof. split; vm_compute; reflexivity. Qed.

(** ** The object the constructor delivers *)

(** A session that the whole constructor delivers holds the object its
    middle part has made: what is proved of an object from
    [AudioCapture_WASAPI] holds for the session. *)
Lemma construct_capture pl dev ses :
  construct pl dev = Started ses ->
  AudioCapture_WASAPI (hr_Activate pl) (hr_GetMixFormat pl)
    (mix_format pl) (new_array pl) = Started (capture ses)
  /\ Forall (fun hr => 0 <= hr) (constructor_checks pl dev).
Proof.
  intros H. split.
  - revert H. unfold construct, CHECK.
    destruct (FAILED (hr_CoInitializeEx pl)); [discriminate|].
    destruct (if is_loopback dev then keep_alive pl else Started false);
      [discriminate|].
    unfold and_then at 1.
    destruct (AudioCapture_WASAPI _ _ _ _) as [|object]; [discriminate|].
    unfold and_then.
    destruct (FAILED (hr_Initialize pl)); [discriminate|].
    destruct (FAILED (hr_GetBufferSize pl)); [discriminate|].
    destruct (FAILED (hr_GetService pl)); [discriminate|].
    destruct (FAILED (hr_Start pl)); [discriminate|].
    intros [= <-]. reflexivity.
  - apply Forall_forall. intros hr Hin.
    destruct (Z.lt_ge_cases hr 0) as [Hneg|Hpos]; [|exact Hpos].
    rewrite construct_checks in H; [discriminate|].
    apply Exists_exists. exists hr. split; assumption.
Qed.
